(** * notte: the LLM response extractor and the completion engine

    A shallow embedding of [notte/llms/engine.py]:

    - [Str]: the methods of Python's [str] the engine calls ([strip],
      [split], [startswith], [endswith], the [in] test);
    - [Re]: the part of Python's [re] the engine's four patterns live in,
      with a pattern compiler and a backtracking matcher;
    - [StructuredContent] and [extract];
    - [LLMEngine], [completion], [single_completion] and
      [structured_completion].

    Texts are sequences of code points below 256 ([ascii]); on that range
    the whitespace of [str.strip] and the digits of [\d] are the ones
    listed below.  Log output and the text of [LLMParsingError] messages
    are not part of the model. *)

From Stdlib Require Import Ascii String Bool Arith Lia ZArith List.
Import ListNotations.

Set Implicit Arguments.

Definition str := list ascii.

(** A Python string literal. *)
Definition u (x : string) : str := list_ascii_of_string x.

(* ================================================================== *)
(** ** Exceptions and outcomes *)

(** Modelled from the spec: the error classes of [notte.errors] are not
    part of the sources; the taxonomy is "RateLimit, InvalidAPIKey,
    ContextWindowExceeded{current_size?, max_size?},
    ModelDoesNotSupportImage, InsufficientCredits,
    GenericProviderError{should_retry_later: bool}" and [ParsingError].
    Each class carries the arguments the engine passes to it. *)
Inductive exn : Type :=
  (* notte.errors.llm *)
  | LLMParsingError
  (* notte.errors.provider, with the arguments the engine passes *)
  | NotteRateLimitError (provider : str)
  | InvalidAPIKeyError (provider : str)
  | ContextWindowExceededError (provider : str) (current_size max_size : option Z)
  | ModelDoesNotSupportImageError (model : str)
  | LLMProviderError (dev_message user_message : str) (agent_message : option str)
                     (should_retry_later : bool)
  | InsufficentCreditsError
  (* pydantic *)
  | ValidationError
  (* builtins *)
  | ValueError
  | TypeError
  | IndexError
  | AttributeError.

(** What a call does: it returns, it raises, or it left the fragment of
    [re] patterns that [Re.compile] covers (nothing is said then). *)
Inductive outcome (A : Type) : Type :=
  | Return (a : A)
  | Raise (e : exn)
  | OutOfFragment.

Arguments Return {A} a.
Arguments Raise {A} e.
Arguments OutOfFragment {A}.

Definition bind {A B : Type} (m : outcome A) (f : A -> outcome B) : outcome B :=
  match m with
  | Return a => f a
  | Raise e => Raise e
  | OutOfFragment => OutOfFragment
  end.

Declare Scope py_scope.
Delimit Scope py_scope with py.
Notation "x <- m ;; f" := (bind m (fun x => f))
  (at level 61, m at next level, right associativity) : py_scope.
Open Scope py_scope.

(** [x or d] on an optional string: [None] and [""] are falsy. *)
Definition truthy (x : option str) : option str :=
  match x with
  | Some (c :: t) => Some (c :: t)
  | _ => None
  end.

Definition py_or (x : option str) (d : str) : str :=
  match truthy x with
  | Some v => v
  | None => d
  end.

(* ================================================================== *)
(** ** Python's [str] *)

Module Str.

(** [str.isspace] of one character, for code points below 256:
    TAB LF VT FF CR, FS GS RS US, SPACE, NEL and NBSP. *)
Definition isspace (c : ascii) : bool :=
  let n := nat_of_ascii c in
  ((9 <=? n) && (n <=? 13)) || ((28 <=? n) && (n <=? 32))
  || (n =? 133) || (n =? 160).

Fixpoint lstrip (s : str) : str :=
  match s with
  | c :: t => if isspace c then lstrip t else s
  | [] => []
  end.

Definition rstrip (s : str) : str := rev (lstrip (rev s)).

Definition strip (s : str) : str := rstrip (lstrip s).

(** [s.startswith(p)] *)
Fixpoint startswith (s p : str) {struct p} : bool :=
  match p, s with
  | [], _ => true
  | _ :: _, [] => false
  | a :: p', b :: s' => Ascii.eqb a b && startswith s' p'
  end.

(** [s.endswith(p)] *)
Definition endswith (s p : str) : bool := startswith (rev s) (rev p).

(** [s.partition(sep)] when [sep] occurs: the text before the first
    occurrence and the text after it. *)
Fixpoint cut (s sep : str) : option (str * str) :=
  if startswith s sep then Some ([], skipn (length sep) s)
  else match s with
       | [] => None
       | c :: t => match cut t sep with
                   | Some (a, b) => Some (c :: a, b)
                   | None => None
                   end
       end.

(** [sub in s] *)
Definition contains (sub s : str) : bool :=
  match cut s sub with
  | Some _ => true
  | None => false
  end.

(** [s.split(sep)]: cut at each occurrence of [sep], left to right, without
    overlap.  Every cut leaves a shorter rest, so [length s] rounds do. *)
Fixpoint split_rounds (n : nat) (s sep : str) : list str :=
  match n with
  | O => [s]
  | S n' => match cut s sep with
            | Some (a, b) => a :: split_rounds n' b sep
            | None => [s]
            end
  end.

Definition split (s sep : str) : outcome (list str) :=
  match sep with
  | [] => Raise ValueError            (* "empty separator" *)
  | _ :: _ => Return (split_rounds (length s) s sep)
  end.

(** [int(s)] on a string of decimal digits; anything else is a
    [ValueError] (the engine passes digit runs only).  Integers are
    unbounded, but the interpreter refuses to convert a string of more
    than [sys.get_int_max_str_digits()] digits, 4300 unless the process
    changes it, with a [ValueError]; leading zeros count. *)
Definition isdigit (c : ascii) : bool :=
  let n := nat_of_ascii c in (48 <=? n) && (n <=? 57).

Definition digit_value (c : ascii) : Z := Z.of_nat (nat_of_ascii c) - 48.

Fixpoint int_acc (acc : Z) (s : str) : option Z :=
  match s with
  | [] => Some acc
  | c :: t => if isdigit c then int_acc (10 * acc + digit_value c) t else None
  end.

Definition int_max_str_digits : nat := 4300.

Definition int (s : str) : outcome Z :=
  match s with
  | [] => Raise ValueError
  | _ :: _ => match int_acc 0 s with
              | Some z =>
                  if int_max_str_digits <? length s then Raise ValueError
                  else Return z
              | None => Raise ValueError
              end
  end.

End Str.

(* ================================================================== *)
(** ** Python's [re], as far as the engine's patterns go *)

Module Re.

(** One-character matchers. *)
Inductive cclass : Type :=
  | CChar (c : ascii)          (* the character itself *)
  | CAny (dotall : bool)       (* [.] *)
  | CNot (c : ascii)           (* [[^c]] *)
  | CDigit.                    (* [\d] *)

Inductive regex : Type :=
  | RCls (cl : cclass)
  | RStar (greedy : bool) (cl : cclass)     (* [x*] and [x*?] *)
  | RPlus (greedy : bool) (cl : cclass)     (* [x+] and [x+?] *)
  | RGroup (n : nat) (r : regex)            (* [( ... )], numbered *)
  | RSeq (r1 r2 : regex)
  | REmpty.

Definition seq_of (items : list regex) : regex := fold_right RSeq REmpty items.

Definition lits (l : str) : list regex := map (fun c => RCls (CChar c)) l.

(** *** The pattern compiler *)

Definition specials : str := u ".^$*+?{}[]\|()".

Definition is_special (c : ascii) : bool := existsb (Ascii.eqb c) specials.

Inductive pmode : Type :=
  | PNormal
  | PEscape                    (* after a backslash *)
  | PSet0                      (* after [[] *)
  | PSet1                      (* after [[^] *)
  | PSet2 (c : ascii).         (* after [[^c] *)

Inductive plast : Type :=
  | LNone                      (* nothing a quantifier could apply to *)
  | LAtom                      (* a one-character matcher *)
  | LGreedy.                   (* a greedy quantifier, [?] makes it lazy *)

Record pstate : Type := mkP {
  p_mode : pmode;
  p_last : plast;
  p_items : list regex;                 (* of the open group, last first *)
  p_stack : list (nat * list regex);    (* the enclosing groups *)
  p_groups : nat                        (* groups opened so far *)
}.

Definition push_atom (cl : cclass) (st : pstate) : pstate :=
  mkP PNormal LAtom (RCls cl :: p_items st) (p_stack st) (p_groups st).

Definition quantify (mk : cclass -> regex) (st : pstate) : option pstate :=
  match p_last st, p_items st with
  | LAtom, RCls cl :: rest =>
      Some (mkP PNormal LGreedy (mk cl :: rest) (p_stack st) (p_groups st))
  | _, _ => None
  end.

Definition make_lazy (st : pstate) : option pstate :=
  match p_last st, p_items st with
  | LGreedy, RStar true cl :: rest =>
      Some (mkP PNormal LNone (RStar false cl :: rest) (p_stack st) (p_groups st))
  | LGreedy, RPlus true cl :: rest =>
      Some (mkP PNormal LNone (RPlus false cl :: rest) (p_stack st) (p_groups st))
  | _, _ => None
  end.

Definition step_special (dotall : bool) (st : pstate) (c : ascii) : option pstate :=
  if Ascii.eqb c "(" then
    Some (mkP PNormal LNone [] ((S (p_groups st), p_items st) :: p_stack st)
              (S (p_groups st)))
  else if Ascii.eqb c ")" then
    match p_stack st with
    | (n, outer) :: stack' =>
        Some (mkP PNormal LNone (RGroup n (seq_of (rev (p_items st))) :: outer)
                  stack' (p_groups st))
    | [] => None
    end
  else if Ascii.eqb c "." then Some (push_atom (CAny dotall) st)
  else if Ascii.eqb c "*" then quantify (RStar true) st
  else if Ascii.eqb c "+" then quantify (RPlus true) st
  else if Ascii.eqb c "?" then make_lazy st
  else if Ascii.eqb c "\" then
    Some (mkP PEscape (p_last st) (p_items st) (p_stack st) (p_groups st))
  else if Ascii.eqb c "[" then
    Some (mkP PSet0 (p_last st) (p_items st) (p_stack st) (p_groups st))
  else None.

Definition step (dotall : bool) (st : pstate) (c : ascii) : option pstate :=
  match p_mode st with
  | PNormal =>
      if is_special c then step_special dotall st c
      else Some (push_atom (CChar c) st)
  | PEscape =>
      if Ascii.eqb c "d" then Some (push_atom CDigit st) else None
  | PSet0 =>
      if Ascii.eqb c "^" then
        Some (mkP PSet1 (p_last st) (p_items st) (p_stack st) (p_groups st))
      else None
  | PSet1 =>
      if is_special c then None
      else Some (mkP (PSet2 c) (p_last st) (p_items st) (p_stack st) (p_groups st))
  | PSet2 x =>
      if Ascii.eqb c "]" then Some (push_atom (CNot x) st) else None
  end.

Fixpoint run (dotall : bool) (st : pstate) (l : str) : option pstate :=
  match l with
  | [] => Some st
  | c :: t => match step dotall st c with
              | Some st' => run dotall st' t
              | None => None
              end
  end.

Definition start : pstate := mkP PNormal LNone [] [] 0.

Definition finish (st : pstate) : option regex :=
  match p_mode st, p_stack st with
  | PNormal, [] => Some (seq_of (rev (p_items st)))
  | _, _ => None
  end.

(** [re.compile(pattern, flags)], [None] outside the fragment: literal
    characters, [.], [\d], [[^c]], the quantifiers [*] [+] [*?] [+?] on one
    character, and groups. *)
Definition compile (dotall : bool) (pattern : str) : option regex :=
  match run dotall start pattern with
  | Some st => finish st
  | None => None
  end.

(** *** The matcher *)

Definition cmatch (cl : cclass) (x : ascii) : bool :=
  match cl with
  | CChar c => Ascii.eqb c x
  | CAny dotall => dotall || negb (Ascii.eqb x "010")
  | CNot c => negb (Ascii.eqb c x)
  | CDigit => Str.isdigit x
  end.

(** The groups of a match, latest first. *)
Definition groups := list (nat * str).

Section Matcher.
Variable A : Type.

(** [cl*] against [s], then [k] on what is left: a greedy star tries the
    longest run first, a lazy one the shortest. *)
Fixpoint star (greedy : bool) (cl : cclass) (s : str) (k : str -> option A)
  : option A :=
  match s with
  | x :: t =>
      if cmatch cl x then
        if greedy then
          match star greedy cl t k with
          | Some r => Some r
          | None => k s
          end
        else
          match k s with
          | Some r => Some r
          | None => star greedy cl t k
          end
      else k s
  | [] => k []
  end.

(** [r] against a prefix of [s], then [k] on the rest, with backtracking
    into [r] when [k] fails. *)
Fixpoint rmatch (r : regex) (s : str) (g : groups)
                (k : str -> groups -> option A) : option A :=
  match r with
  | RCls cl =>
      match s with
      | x :: t => if cmatch cl x then k t g else None
      | [] => None
      end
  | RStar greedy cl => star greedy cl s (fun s' => k s' g)
  | RPlus greedy cl =>
      match s with
      | x :: t => if cmatch cl x then star greedy cl t (fun s' => k s' g) else None
      | [] => None
      end
  | RGroup n r' =>
      rmatch r' s g
        (fun s' g' => k s' ((n, firstn (length s - length s') s) :: g'))
  | RSeq r1 r2 => rmatch r1 s g (fun s' g' => rmatch r2 s' g' k)
  | REmpty => k s g
  end.

End Matcher.

(** A match anchored at the start of [s]. *)
Definition match_at (r : regex) (s : str) : option groups :=
  rmatch r s [] (fun _ g => Some g).

(** The leftmost match: every start position in turn, the end of the
    text included. *)
Fixpoint search_from (r : regex) (s : str) : option groups :=
  match match_at r s with
  | Some g => Some g
  | None => match s with
            | [] => None
            | _ :: t => search_from r t
            end
  end.

(** [re.search(pattern, s, flags)]: the match object or [None]. *)
Definition search (pattern s : str) (dotall : bool) : outcome (option groups) :=
  match compile dotall pattern with
  | Some r => Return (search_from r s)
  | None => OutOfFragment
  end.

(** [m.group(n)]; a group that took no part in the match is [None]. *)
Fixpoint group (m : groups) (n : nat) : option str :=
  match m with
  | [] => None
  | (i, x) :: rest => if Nat.eqb i n then Some x else group rest n
  end.

Definition NOFLAGS : bool := false.
Definition DOTALL : bool := true.

End Re.

(* ================================================================== *)
(** ** The response extractor *)

(** [@dataclass class StructuredContent] *)
Record StructuredContent : Type := mkStructuredContent {
  outer_tag : option str;
  inner_tag : option str;
  next_outer_tag : option str;
  fail_if_final_tag : bool;        (* raise if the final tag is not found *)
  fail_if_inner_tag : bool;        (* raise if the inner tag is not found *)
  fail_if_next_outer_tag : bool    (* raise if the next outer tag is not found *)
}.

(** The dataclass defaults. *)
Definition StructuredContent_default : StructuredContent :=
  mkStructuredContent None None None true true true.

(** [m.group(1).strip()] *)
Definition group1_strip (m : Re.groups) : outcome str :=
  match Re.group m 1 with
  | Some x => Return (Str.strip x)
  | None => Raise AttributeError
  end.

(** [splits[i]] *)
Definition item (splits : list str) (i : nat) : outcome str :=
  match nth_error splits i with
  | Some x => Return x
  | None => Raise IndexError
  end.

(** Lines 186-191: the retry on the next outer tag. *)
Definition retry_split (possible_match next_open : str) : outcome str :=
  splits <- Str.split possible_match next_open ;;
  if length splits =? 1 then Raise LLMParsingError
  else x <- item splits 0 ;; Return (Str.strip x).

(** Lines 175-195: no [<outer_tag>...</outer_tag>] span was found. *)
Definition extract_unclosed (self : StructuredContent) (tag text : str)
  : outcome str :=
  splits <- Str.split text (u "<" ++ tag ++ u ">") ;;
  if fail_if_final_tag self || (length splits =? 1) then Raise LLMParsingError
  else
    possible_match <- item splits 1 ;;
    possible_match <-
      match next_outer_tag self with
      | Some next =>
          if negb (fail_if_next_outer_tag self)
             && Str.contains (u "<" ++ next ++ u ">") possible_match
          then retry_split possible_match (u "<" ++ next ++ u ">")
          else Return possible_match
      | None => Return possible_match
      end ;;
    m <- Re.search (u "<[^>]*>") possible_match Re.NOFLAGS ;;
    match m with
    | Some _ => Raise LLMParsingError
    | None => Return possible_match
    end.

(** Lines 168-195: [if self.outer_tag: ...], the value of [content]
    after it. *)
Definition extract_outer (self : StructuredContent) (text : str) : outcome str :=
  match truthy (outer_tag self) with
  | Some tag =>
      m <- Re.search (u "<" ++ tag ++ u ">(.*?)</" ++ tag ++ u ">") text Re.DOTALL ;;
      match m with
      | Some m => group1_strip m
      | None => extract_unclosed self tag text
      end
  | None => Return text
  end.

(** Lines 197-206: [if self.inner_tag: ...] and the final [return]. *)
Definition extract_inner (self : StructuredContent) (content : str) : outcome str :=
  match truthy (inner_tag self) with
  | Some tag =>
      m <- Re.search (u "```" ++ tag ++ u "(.*?)```") content Re.DOTALL ;;
      match m with
      | Some m => group1_strip m
      | None =>
          if fail_if_inner_tag self then Raise LLMParsingError
          else Return content
      end
  | None => Return content
  end.

(** [StructuredContent.extract] *)
Definition extract (self : StructuredContent) (text : str) : outcome str :=
  content <- extract_outer self text ;;
  extract_inner self content.

(* ================================================================== *)
(** ** The completion engine *)

(** The exception classes of the provider client that [completion] names
    in its [except] clauses, and everything else. *)
Inductive litellm_class : Type :=
  | RateLimitError
  | AuthenticationError
  | LiteLLMContextWindowExceededError
  | BadRequestError
  | APIError
  | Exception.

(** Modelled from the spec: the provider client is not part of the
    sources; it "raises a fixed family of provider-neutral exceptions
    (rate-limit, auth, context-window, bad-request, generic API error)".
    In the client the context-window error is a bad-request error, and
    every class is an [Exception]. *)
Definition isinstance (raised handler : litellm_class) : bool :=
  match handler, raised with
  | Exception, _ => true
  | RateLimitError, RateLimitError => true
  | AuthenticationError, AuthenticationError => true
  | LiteLLMContextWindowExceededError, LiteLLMContextWindowExceededError => true
  | BadRequestError, BadRequestError => true
  | BadRequestError, LiteLLMContextWindowExceededError => true
  | APIError, APIError => true
  | _, _ => false
  end.

(** A raised provider exception: its class and [str(e)]. *)
Record litellm_exception : Type := mkException {
  e_class : litellm_class;
  e_str : str
}.

(** [ModelResponse], as far as the engine reads it:
    [choices[i].message.content]. *)
Record ModelResponse : Type := mkModelResponse {
  choices : list (option str)
}.

Record LLMEngine : Type := mkLLMEngine {
  model : str;
  sc : StructuredContent
}.

(** [self.model], where an argument called [model] hides the field. *)
Definition self_model (self : LLMEngine) : str := model self.

(** [LLMEngine.__init__] *)
Definition LLMEngine_init (model : option str) : LLMEngine :=
  mkLLMEngine
    (py_or model (u "groq/llama-3.3-70b-versatile"))
    (mkStructuredContent None (Some (u "json")) None true false true).

(** Modelled from the spec: the decorator [trace_llm_usage] is not part of
    the sources; "usage tracing wraps this call but does not alter its
    error/success contract". *)
Definition trace_llm_usage {A : Type} (call : outcome A) : outcome A := call.

(** [int(match.group(n))] *)
Definition int_group (m : Re.groups) (n : nat) : outcome Z :=
  match Re.group m n with
  | Some x => Str.int x
  | None => Raise TypeError
  end.

(** Lines 101-107: the sizes in the text of a context-window error. *)
Definition context_sizes (text : str) : outcome (option Z * option Z) :=
  m <- Re.search (u "Current length is (\d+) while limit is (\d+)") text Re.NOFLAGS ;;
  match m with
  | Some m =>
      current_size <- int_group m 1 ;;
      max_size <- int_group m 2 ;;
      Return (Some current_size, Some max_size)
  | None => Return (None, None)
  end.

(** Lines 95-139: the [except] clauses, in their order. *)
Definition classify (model : str) (e : litellm_exception) : outcome exn :=
  let text := e_str e in
  if isinstance (e_class e) RateLimitError then
    Return (NotteRateLimitError model)
  else if isinstance (e_class e) AuthenticationError then
    Return (InvalidAPIKeyError model)
  else if isinstance (e_class e) LiteLLMContextWindowExceededError then
    sizes <- context_sizes text ;;
    Return (ContextWindowExceededError model (fst sizes) (snd sizes))
  else if isinstance (e_class e) BadRequestError then
    if Str.contains (u "Input should be a valid string") text then
      Return (ModelDoesNotSupportImageError model)
    else
      Return (LLMProviderError
                (u "Bad request to provider " ++ model ++ u ". " ++ text)
                (u "Invalid request parameters to LLM provider.")
                None false)
  else if isinstance (e_class e) APIError then
    Return (LLMProviderError
              (u "API error from provider " ++ model ++ u ". " ++ text)
              (u "An unexpected error occurred while processing your request.")
              None true)
  else
    if Str.contains (u "credit balance is too low") text then
      Return InsufficentCreditsError
    else
      Return (LLMProviderError
                (u "Unexpected error from LLM provider: " ++ text)
                (u "An unexpected error occurred while processing your request.")
                None true).

Section Engine.

(** The collaborators: message lists, temperatures, the provider client
    and the schema validator of the response format. *)
Variable messages_t : Type.
Variable temperature_t : Type.
Variable temperature_zero : temperature_t.

(** [litellm.completion(model, messages, temperature=, n=, response_format=)] *)
Variable litellm_completion :
  str -> messages_t -> temperature_t -> nat -> option (list (str * str)) ->
  ModelResponse + litellm_exception.

(** [LLMEngine.completion] *)
Definition completion (self : LLMEngine) (messages : messages_t)
    (model : option str) (temperature : temperature_t)
    (response_format : option (list (str * str))) (n : nat)
  : outcome ModelResponse :=
  trace_llm_usage
    (let model := py_or model (self_model self) in
     match litellm_completion model messages temperature n response_format with
     | inl response => Return response
     | inr e => err <- classify model e ;; Raise err
     end).

(** [LLMEngine.single_completion] *)
Definition single_completion (self : LLMEngine) (messages : messages_t)
    (model : option str) (temperature : temperature_t)
    (response_format : option (list (str * str)))
  : outcome (option str) :=
  let model := py_or model (self_model self) in
  response <- completion self messages (Some model) temperature response_format 1 ;;
  match nth_error (choices response) 0 with
  | Some content => Return content
  | None => Raise IndexError
  end.

(** The schema type [T] and [response_format.model_validate_json]. *)
Variable T : Type.
Variable model_validate_json : str -> outcome T.

(** Lines 43-55, once [single_completion] has returned [raw]. *)
Definition parse_structured (self : LLMEngine) (raw : str) : outcome T :=
  let content := Str.strip raw in
  content <- extract (sc self) content ;;
  let content := Str.strip content in
  content <-
    (if Str.contains (u "```json") content then
       content <- extract (sc self) content ;;
       Return (Str.strip content)
     else if negb (Str.startswith content (u "{"))
             || negb (Str.endswith content (u "}")) then
       Raise LLMParsingError
     else Return content) ;;
  match model_validate_json content with
  | Raise ValidationError => Raise LLMParsingError
  | result => result
  end.

(** [LLMEngine.structured_completion] *)
Definition structured_completion (self : LLMEngine) (messages : messages_t)
    (model : option str) : outcome T :=
  content <- single_completion self messages model temperature_zero
               (Some [(u "type", u "json_object")]) ;;
  match content with
  | Some raw => parse_structured self raw
  | None => Raise AttributeError          (* [None.strip()] *)
  end.

End Engine.

(* ================================================================== *)
(** ** The vocabulary of the statements *)

Unset Implicit Arguments.

Module Spec.
Import Re.

(** [sep] occurs in [s]. *)
Definition occurs (sep s : str) : Prop := exists a b, s = a ++ sep ++ b.

(** [sep] occurs in [s] after [a], and not before. *)
Definition first_at (sep s a b : str) : Prop :=
  s = a ++ sep ++ b /\
  forall a' b', s = a' ++ sep ++ b' -> length a <= length a'.

(** [x] is [s] up to the next [sep], all of [s] when there is none. *)
Definition up_to (sep s x : str) : Prop :=
  (exists y, first_at sep s x y) \/ (~ occurs sep s /\ x = s).

Definition segment (sep s : str) : str :=
  match Str.cut s sep with
  | Some (x, _) => x
  | None => s
  end.

(** A text without any character that [re] reads as syntax: inside a
    pattern it stands for itself. *)
Definition plain (l : str) : bool := forallb (fun c => negb (is_special c)) l.

(** The markup around a payload. *)
Definition open_tag (tag : str) : str := u "<" ++ tag ++ u ">".
Definition close_tag (tag : str) : str := u "</" ++ tag ++ u ">".
Definition fence (tag : str) : str := u "```" ++ tag.
Definition fence_end : str := u "```".

(** A span [pre x post] somewhere in the text. *)
Definition has_span (pre post text : str) : Prop :=
  exists a x b, text = a ++ pre ++ x ++ post ++ b.

(** The first span: the first [pre], then the nearest [post]. *)
Definition first_span (pre post text a x b : str) : Prop :=
  first_at pre text a (x ++ post ++ b) /\ first_at post (x ++ post ++ b) x b.

(** The text between the first [pre] and the first [post] after it. *)
Definition between (pre post s : str) : option str :=
  match Str.cut s pre with
  | Some (_, t) =>
      match Str.cut t post with
      | Some (x, _) => Some x
      | None => None
      end
  | None => None
  end.

(** What the two tag patterns compile to: a literal text, a lazy group, a
    literal text. *)
Definition between_re (d : bool) (pre post : str) : regex :=
  seq_of (lits pre ++ RGroup 1 (seq_of [RStar false (CAny d)]) :: lits post).

(** The run of characters of a class at the start of a text, and what
    follows it. *)
Fixpoint take_run (p : ascii -> bool) (s : str) : str :=
  match s with
  | x :: t => if p x then x :: take_run p t else []
  | [] => []
  end.

Fixpoint skip_run (p : ascii -> bool) (s : str) : str :=
  match s with
  | x :: t => if p x then skip_run p t else s
  | [] => []
  end.

(** [s] does not start with a character of the class. *)
Definition stops (p : ascii -> bool) (s : str) : Prop :=
  match s with
  | x :: _ => p x = false
  | [] => True
  end.

(** [out] is [x] without the whitespace around it: what is cut off on
    either side is whitespace, and [out] neither starts nor ends with
    whitespace. *)
Definition trimmed (x out : str) : Prop :=
  exists l r,
    x = l ++ out ++ r /\
    forallb Str.isspace l = true /\ forallb Str.isspace r = true /\
    stops Str.isspace out /\ stops Str.isspace (rev out).

(** The residual-tag pattern [<[^>]*>], and what it finds: an opening
    bracket, then a closing one with none in between. *)
Definition taglike_re : regex :=
  seq_of [RCls (CChar "<"); RStar true (CNot ">"); RCls (CChar ">")].

Definition tag_like (s : str) : Prop :=
  exists a m b, s = a ++ u "<" ++ m ++ u ">" ++ b /\ ~ In ">"%char m.

(** The size pattern of a context-window error. *)
Definition size_pre : str := u "Current length is ".
Definition size_mid : str := u " while limit is ".

Definition sizes_re : regex :=
  seq_of (lits size_pre ++ RGroup 1 (seq_of [RPlus true CDigit])
          :: lits size_mid ++ [RGroup 2 (seq_of [RPlus true CDigit])]).

(** The two digit runs of a size report at the start of the text. *)
Definition sizes_at (s : str) : option (str * str) :=
  if Str.startswith s size_pre then
    let t := skipn (length size_pre) s in
    let n := take_run Str.isdigit t in
    let r := skip_run Str.isdigit t in
    match n with
    | [] => None
    | _ :: _ =>
        if Str.startswith r size_mid then
          let t2 := skipn (length size_mid) r in
          match take_run Str.isdigit t2 with
          | [] => None
          | m => Some (n, m)
          end
        else None
    end
  else None.

(** A non-empty string of decimal digits, and the number it writes. *)
Definition digits (s : str) : Prop := s <> [] /\ forallb Str.isdigit s = true.

Definition decimal (s : str) : Z :=
  fold_left (fun acc c => (10 * acc + Str.digit_value c)%Z) s 0%Z.

(** The text reports sizes after [a]: the digit runs [n] and [m], the
    second one as long as the digits go. *)
Definition size_report (text a n m b : str) : Prop :=
  text = a ++ size_pre ++ n ++ size_mid ++ m ++ b /\
  digits n /\ digits m /\ stops Str.isdigit b.

(** A digit run [int] converts: within the interpreter's cap. *)
Definition within_cap (s : str) : Prop := length s <= Str.int_max_str_digits.

(** The size pattern occurs somewhere in the text. *)
Definition size_occurs (text : str) : Prop :=
  exists a n m b,
    text = a ++ size_pre ++ n ++ size_mid ++ m ++ b /\ digits n /\ digits m.

(** Lines 192-194 of [extract]: the residual-tag check. *)
Definition residual_check (possible_match : str) : outcome str :=
  m <- Re.search (u "<[^>]*>") possible_match Re.NOFLAGS ;;
  match m with
  | Some _ => Raise LLMParsingError
  | None => Return possible_match
  end.

(** Lines 179-191 of [extract]: the tentative match after the optional
    retry. *)
Definition tentative (self : StructuredContent) (seg : str) : outcome str :=
  match next_outer_tag self with
  | Some next =>
      if negb (fail_if_next_outer_tag self)
         && Str.contains (u "<" ++ next ++ u ">") seg
      then retry_split seg (u "<" ++ next ++ u ">")
      else Return seg
  | None => Return seg
  end.

(** The match the unclosed path ends with: the part of the segment before
    the next tag, trimmed, when the retry applies; else the segment. *)
Inductive final_match (self : StructuredContent) (seg : str) : str -> Prop :=
  | final_retry (next x y : str) :
      next_outer_tag self = Some next ->
      fail_if_next_outer_tag self = false ->
      first_at (open_tag next) seg x y ->
      final_match self seg (Str.strip x)
  | final_keep :
      (forall next, next_outer_tag self = Some next ->
         fail_if_next_outer_tag self = true \/ ~ occurs (open_tag next) seg) ->
      final_match self seg seg.

(** No tag of the configuration is left in an output. *)
Definition no_tags_remain (self : StructuredContent) (out : str) : Prop :=
  (forall tag, truthy (outer_tag self) = Some tag ->
     ~ occurs (open_tag tag) out) /\
  (forall tag, truthy (inner_tag self) = Some tag ->
     ~ occurs (fence tag) out).

(** The model id a call asks for: the argument when it is given and not
    empty, else the model of the engine. *)
Definition requested (self : LLMEngine) (model : option str) : str :=
  match model with
  | Some (c :: m) => c :: m
  | _ => self_model self
  end.

(** The errors of the provider taxonomy. *)
Definition provider_error (e : exn) : Prop :=
  match e with
  | NotteRateLimitError _ | InvalidAPIKeyError _
  | ContextWindowExceededError _ _ _ | ModelDoesNotSupportImageError _
  | LLMProviderError _ _ _ _ | InsufficentCreditsError => True
  | _ => False
  end.

(** The sizes of a context-window error: both absent, or both present and
    not negative. *)
Definition sizes_ok (current_size max_size : option Z) : Prop :=
  match current_size, max_size with
  | None, None => True
  | Some c, Some m => (0 <= c)%Z /\ (0 <= m)%Z
  | _, _ => False
  end.

(** Lines 51-55 of [structured_completion]: the validation of the final
    text, a [ValidationError] becoming a parsing error. *)
Definition validated {T : Type} (validate : str -> outcome T) (content : str)
  : outcome T :=
  match validate content with
  | Raise ValidationError => Raise LLMParsingError
  | result => result
  end.

(** Line 49: the text starts with an opening brace and ends with a
    closing one. *)
Definition braced (content : str) : bool :=
  Str.startswith content (u "{") && Str.endswith content (u "}").

(** The two phrases [completion] looks for in the text of an error. *)
Definition image_phrase : str := u "Input should be a valid string".
Definition credit_phrase : str := u "credit balance is too low".

(** The response format [structured_completion] asks for. *)
Definition json_object : option (list (str * str)) :=
  Some [(u "type", u "json_object")].

End Spec.

(* ================================================================== *)
(** ** What the [str] methods compute *)

Module StrFacts.
Import Str Spec.

Lemma startswith_app (p t : str) : startswith (p ++ t) p = true.
Proof.
  induction p as [|c p IH]; simpl; [reflexivity|].
  now rewrite Ascii.eqb_refl, IH.
Qed.

Lemma startswith_inv (s p : str) :
  startswith s p = true -> s = p ++ skipn (length p) s.
Proof.
  revert s; induction p as [|c p IH]; intros s H; simpl in *; [reflexivity|].
  destruct s as [|x s]; [discriminate|].
  apply andb_prop in H as [Hc Hp].
  apply Ascii.eqb_eq in Hc; subst x.
  simpl; f_equal; now apply IH.
Qed.

Lemma startswith_iff (s p : str) :
  startswith s p = true <-> exists t, s = p ++ t.
Proof.
  split.
  - intros H; eexists; now apply startswith_inv.
  - intros [t ->]; apply startswith_app.
Qed.

Lemma endswith_iff (s p : str) :
  endswith s p = true <-> exists t, s = t ++ p.
Proof.
  unfold endswith. rewrite startswith_iff. split.
  - intros [t H]. exists (rev t).
    apply (f_equal (@rev ascii)) in H.
    now rewrite rev_involutive, rev_app_distr, rev_involutive in H.
  - intros [t ->]. exists (rev t). apply rev_app_distr.
Qed.

Lemma skipn_app_exact (p t : str) : skipn (length p) (p ++ t) = t.
Proof. induction p; simpl; auto. Qed.

Lemma cut_cons (c : ascii) (t sep : str) :
  startswith (c :: t) sep = false ->
  cut (c :: t) sep =
  match cut t sep with Some (a, b) => Some (c :: a, b) | None => None end.
Proof. intros H; simpl cut; now rewrite H. Qed.

Lemma cut_here (s sep : str) :
  startswith s sep = true -> cut s sep = Some ([], skipn (length sep) s).
Proof. intros H; destruct s; simpl cut; now rewrite H. Qed.

Lemma cut_sound (s sep a b : str) :
  cut s sep = Some (a, b) -> s = a ++ sep ++ b.
Proof.
  revert a b; induction s as [|c t IH]; intros a b H.
  - simpl in H. destruct (startswith [] sep) eqn:E; [|discriminate].
    injection H as <- <-. now apply startswith_inv.
  - destruct (startswith (c :: t) sep) eqn:E.
    + rewrite (cut_here _ _ E) in H. injection H as <- <-.
      now apply startswith_inv.
    + rewrite (cut_cons _ _ _ E) in H.
      destruct (cut t sep) as [[a0 b0]|]; [|discriminate].
      injection H as <- <-. simpl; f_equal; now apply IH.
Qed.

Lemma cut_leftmost (s sep a b : str) :
  cut s sep = Some (a, b) ->
  forall a' b', s = a' ++ sep ++ b' -> length a <= length a'.
Proof.
  revert a b; induction s as [|c t IH]; intros a b H a' b' E.
  - simpl in H. destruct (startswith [] sep); [|discriminate].
    injection H as <- <-; simpl; lia.
  - destruct (startswith (c :: t) sep) eqn:Es.
    + rewrite (cut_here _ _ Es) in H. injection H as <- <-; simpl; lia.
    + rewrite (cut_cons _ _ _ Es) in H.
      destruct (cut t sep) as [[a0 b0]|] eqn:Ec; [|discriminate].
      injection H as <- <-.
      destruct a' as [|x a'].
      * simpl in E. rewrite E, startswith_app in Es; discriminate.
      * simpl in E; injection E as _ E. simpl.
        apply le_n_S. eapply IH; eauto.
Qed.

Lemma cut_complete (s sep a b : str) :
  s = a ++ sep ++ b -> exists a0 b0, cut s sep = Some (a0, b0).
Proof.
  revert s; induction a as [|c a IH]; intros s ->.
  - simpl. rewrite cut_here by apply startswith_app. eauto.
  - change ((c :: a) ++ sep ++ b) with (c :: (a ++ sep ++ b)).
    destruct (startswith (c :: a ++ sep ++ b) sep) eqn:Es.
    + rewrite (cut_here _ _ Es); eauto.
    + rewrite (cut_cons _ _ _ Es).
      destruct (IH _ eq_refl) as (a0 & b0 & ->); eauto.
Qed.

Lemma cut_first_at (s sep a b : str) :
  cut s sep = Some (a, b) <-> first_at sep s a b.
Proof.
  split.
  - intros H; split; [now apply cut_sound | now apply (cut_leftmost s sep a b)].
  - intros [E Hmin].
    destruct (cut_complete _ _ _ _ E) as (a0 & b0 & Hc).
    pose proof (cut_sound _ _ _ _ Hc) as E0.
    pose proof (cut_leftmost _ _ _ _ Hc _ _ E) as L1.
    pose proof (Hmin _ _ E0) as L2.
    assert (length a = length a0) as L by lia.
    rewrite E in E0.
    assert (a = a0 /\ sep ++ b = sep ++ b0) as [-> Eb].
    { clear - E0 L. revert a0 E0 L. induction a as [|x a IH]; intros [|y a0] E0 L;
        simpl in *; try discriminate; auto.
      injection E0 as -> E0. injection L as L.
      destruct (IH _ E0 L) as [-> ?]; auto. }
    apply app_inv_head in Eb; subst; assumption.
Qed.

Lemma cut_none (s sep : str) : cut s sep = None <-> ~ occurs sep s.
Proof.
  split.
  - intros H (a & b & E).
    destruct (cut_complete _ _ _ _ E) as (a0 & b0 & Hc); congruence.
  - intros H. destruct (cut s sep) as [[a b]|] eqn:Hc; [|reflexivity].
    exfalso; apply H; exists a, b; now apply cut_sound.
Qed.

Lemma contains_iff (sub s : str) : contains sub s = true <-> occurs sub s.
Proof.
  unfold contains. destruct (cut s sub) as [[a b]|] eqn:Hc.
  - split; [|reflexivity]. intros _; exists a, b; now apply cut_sound.
  - split; [discriminate|]. intros H. apply cut_none in Hc. contradiction.
Qed.

Lemma contains_false (sub s : str) : contains sub s = false <-> ~ occurs sub s.
Proof.
  rewrite <- cut_none. unfold contains.
  destruct (cut s sub) as [[? ?]|]; split; congruence.
Qed.

Lemma cut_none_tail (c : ascii) (t sep : str) :
  cut (c :: t) sep = None -> cut t sep = None.
Proof.
  intros H. destruct (startswith (c :: t) sep) eqn:Es.
  - rewrite (cut_here _ _ Es) in H; discriminate.
  - rewrite (cut_cons _ _ _ Es) in H. destruct (cut t sep) as [[? ?]|]; congruence.
Qed.

Lemma cut_none_skipn (n : nat) (s sep : str) :
  cut s sep = None -> cut (skipn n s) sep = None.
Proof.
  revert s; induction n as [|n IH]; intros s H; [assumption|].
  destruct s as [|c t]; [assumption|]. simpl. apply IH. eapply cut_none_tail; eauto.
Qed.

(** [split]: the text before the first separator, then the split of the
    rest. *)
Lemma split_rounds_enough (sep : str) :
  sep <> [] ->
  forall n m s, length s <= n -> length s <= m ->
  split_rounds n s sep = split_rounds m s sep.
Proof.
  intros Hsep. induction n as [|n IH]; intros m s Hn Hm.
  - destruct s; [|simpl in Hn; lia].
    destruct m; [reflexivity|]. simpl split_rounds.
    destruct sep; [congruence|]. reflexivity.
  - destruct m as [|m].
    + destruct s; [|simpl in Hm; lia]. simpl split_rounds.
      destruct sep; [congruence|]. reflexivity.
    + simpl. destruct (cut s sep) as [[a b]|] eqn:Hc; [|reflexivity].
      f_equal. apply cut_sound in Hc. subst s.
      rewrite !length_app in *. destruct sep; [congruence|]. simpl in *.
      apply IH; lia.
Qed.

Lemma split_unfold (s sep : str) (c : ascii) :
  split s (c :: sep) =
  Return (match cut s (c :: sep) with
          | Some (a, b) => a :: split_rounds (length b) b (c :: sep)
          | None => [s]
          end).
Proof.
  unfold split. f_equal. destruct s as [|x s].
  - reflexivity.
  - cbn [length split_rounds].
    destruct (cut (x :: s) (c :: sep)) as [[a b]|] eqn:Hc; [|reflexivity].
    f_equal. apply split_rounds_enough; [discriminate| |lia].
    apply cut_sound in Hc. apply (f_equal (@length _)) in Hc.
    rewrite !length_app in Hc. simpl in Hc. lia.
Qed.

Lemma split_rounds_head (b sep : str) :
  exists rest,
    split_rounds (length b) b sep =
    match cut b sep with Some (x, _) => x | None => b end :: rest.
Proof.
  destruct b as [|c b]; cbn [length split_rounds].
  - destruct (cut [] sep) as [[x y]|] eqn:Hc; eauto.
    apply cut_sound in Hc. destruct x; [eauto | discriminate].
  - destruct (cut (c :: b) sep) as [[x y]|]; eauto.
Qed.

End StrFacts.

(* ================================================================== *)
(** ** What the patterns compile to and what they match *)

Module ReFacts.
Import Re Spec StrFacts.

Lemma plain_app (l1 l2 : str) : plain (l1 ++ l2) = plain l1 && plain l2.
Proof. apply forallb_app. Qed.

Lemma run_app (d : bool) (l1 l2 : str) :
  forall st,
  run d st (l1 ++ l2) =
  match run d st l1 with Some st' => run d st' l2 | None => None end.
Proof.
  induction l1 as [|c l1 IH]; intros st; simpl; [reflexivity|].
  destruct (step d st c); [apply IH | reflexivity].
Qed.

Lemma run_plain (d : bool) (l : str) :
  plain l = true ->
  forall la items stack n,
  exists la',
    run d (mkP PNormal la items stack n) l =
    Some (mkP PNormal la' (rev (lits l) ++ items) stack n).
Proof.
  induction l as [|c l IH]; intros Hp la items stack n.
  - exists la; reflexivity.
  - simpl in Hp. apply andb_prop in Hp as [Hc Hl].
    apply negb_true_iff in Hc.
    destruct (IH Hl LAtom (RCls (CChar c) :: items) stack n) as [la' E].
    exists la'. simpl run. unfold step; simpl p_mode. rewrite Hc.
    unfold push_atom; simpl. rewrite E. now rewrite <- app_assoc.
Qed.

Lemma run_lazy_group (d : bool) (la : plast) (items : list regex)
      (stack : list (nat * list regex)) (n : nat) :
  run d (mkP PNormal la items stack n) (u "(.*?)") =
  Some (mkP PNormal LNone
            (RGroup (S n) (seq_of [RStar false (CAny d)]) :: items) stack (S n)).
Proof. reflexivity. Qed.

Lemma compile_between (d : bool) (pre post : str) :
  plain pre = true -> plain post = true ->
  compile d (pre ++ u "(.*?)" ++ post) = Some (between_re d pre post).
Proof.
  intros Hpre Hpost. unfold compile, start.
  rewrite run_app.
  destruct (run_plain d pre Hpre LNone [] [] 0) as [la1 ->].
  rewrite run_app, run_lazy_group.
  destruct (run_plain d post Hpost LNone
              (RGroup 1 (seq_of [RStar false (CAny d)]) :: rev (lits pre) ++ []) [] 1)
    as [la2 ->]. unfold finish; simpl. unfold between_re. 
  rewrite app_nil_r, rev_app_distr, rev_involutive. simpl rev.
  rewrite rev_involutive, <- app_assoc. reflexivity.
Qed.

Section Matching.
Variable A : Type.

Lemma rmatch_lits (l : str) (rest : list regex) :
  forall (s : str) (g : groups) (k : str -> groups -> option A),
  rmatch (seq_of (lits l ++ rest)) s g k =
  if Str.startswith s l then rmatch (seq_of rest) (skipn (length l) s) g k
  else None.
Proof.
  induction l as [|c l IH]; intros s g k; [reflexivity|].
  simpl lits. simpl app. simpl seq_of. simpl rmatch.
  destruct s as [|x t]; [reflexivity|]. simpl.
  destruct (Ascii.eqb c x); [|reflexivity]. simpl. apply IH.
Qed.

(** A lazy [.*] under DOTALL stops at the first place where what follows
    matches. *)
Lemma star_lazy_cut (post : str) (F : str -> A) :
  forall s,
  star false (CAny true) s
       (fun s' => if Str.startswith s' post then Some (F s') else None) =
  match Str.cut s post with
  | Some (x, _) => Some (F (skipn (length x) s))
  | None => None
  end.
Proof.
  induction s as [|c t IH].
  - simpl. destruct (Str.startswith [] post); reflexivity.
  - simpl star. destruct (Str.startswith (c :: t) post) eqn:E.
    + rewrite (cut_here _ _ E). reflexivity.
    + rewrite (cut_cons _ _ _ E), IH.
      destruct (Str.cut t post) as [[x y]|]; reflexivity.
Qed.

Lemma star_ext (greedy : bool) (cl : cclass) (k1 k2 : str -> option A) :
  (forall s, k1 s = k2 s) ->
  forall s, star greedy cl s k1 = star greedy cl s k2.
Proof.
  intros H. induction s as [|x t IH]; simpl; [apply H|].
  rewrite IH, (H (x :: t)). reflexivity.
Qed.

(** A greedy star takes the whole run when what follows accepts there. *)
Lemma star_greedy_longest (cl : cclass) (k : str -> option A) (r : A) :
  forall s,
  k (skip_run (cmatch cl) s) = Some r ->
  star true cl s k = Some r.
Proof.
  induction s as [|x t IH]; simpl; intros H; [assumption|].
  destruct (cmatch cl x); [|assumption].
  now rewrite (IH H).
Qed.

(** It gives nothing back when what follows cannot start inside the run. *)
Lemma star_greedy_run (cl : cclass) (k : str -> option A) :
  (forall x t, cmatch cl x = true -> k (x :: t) = None) ->
  forall s, star true cl s k = k (skip_run (cmatch cl) s).
Proof.
  intros Hk. induction s as [|x t IH]; simpl; [reflexivity|].
  destruct (cmatch cl x) eqn:E; [|reflexivity].
  rewrite IH. destruct (k (skip_run (cmatch cl) t)); [reflexivity|].
  now apply Hk.
Qed.

(** Whatever a greedy star ends on lies after a run of the class. *)
Lemma star_greedy_some (cl : cclass) (k : str -> option A) (r : A) :
  forall s,
  star true cl s k = Some r ->
  exists n, k (skipn n s) = Some r /\ forallb (cmatch cl) (firstn n s) = true.
Proof.
  induction s as [|x t IH]; simpl; intros H.
  - exists 0; auto.
  - destruct (cmatch cl x) eqn:E.
    + destruct (star true cl t k) eqn:Es.
      * injection H as ->. destruct (IH eq_refl) as (n & Hn & Hf).
        exists (S n); simpl; rewrite E; auto.
      * exists 0; auto.
    + exists 0; auto.
Qed.

End Matching.

Lemma take_skip_run (p : ascii -> bool) (s : str) :
  s = take_run p s ++ skip_run p s.
Proof.
  induction s as [|x t IH]; simpl; [reflexivity|].
  destruct (p x); simpl; [now f_equal | reflexivity].
Qed.

Lemma take_run_all (p : ascii -> bool) (s : str) :
  forallb p (take_run p s) = true.
Proof.
  induction s as [|x t IH]; simpl; [reflexivity|].
  destruct (p x) eqn:E; simpl; [now rewrite E | reflexivity].
Qed.

Lemma skip_run_stops (p : ascii -> bool) (s : str) : stops p (skip_run p s).
Proof.
  induction s as [|x t IH]; simpl; [exact I|].
  destruct (p x) eqn:E; [assumption | exact E].
Qed.

Lemma run_app_stops (p : ascii -> bool) (l rest : str) :
  forallb p l = true -> stops p rest ->
  take_run p (l ++ rest) = l /\ skip_run p (l ++ rest) = rest.
Proof.
  intros Hl Hr. induction l as [|x l IH]; simpl in *.
  - destruct rest as [|y rest]; simpl in *; [auto|]. now rewrite Hr.
  - apply andb_prop in Hl as [Hx Hl]. rewrite Hx.
    destruct (IH Hl) as [-> ->]; auto.
Qed.

Lemma firstn_take_run (p : ascii -> bool) (s : str) :
  firstn (length s - length (skip_run p s)) s = take_run p s.
Proof.
  rewrite (take_skip_run p s) at 1 3.
  rewrite length_app, Nat.add_sub.
  rewrite firstn_app, firstn_all, Nat.sub_diag. simpl. apply app_nil_r.
Qed.

Lemma search_from_none (r : regex) (s : str) :
  search_from r s = None <-> forall n, match_at r (skipn n s) = None.
Proof.
  induction s as [|c t IH]; simpl search_from.
  - split.
    + intros H n. rewrite skipn_nil. now destruct (match_at r []).
    + intros H. pose proof (H 0) as H0. simpl in H0. now rewrite H0.
  - split.
    + intros H [|n]; simpl skipn.
      * now destruct (match_at r (c :: t)).
      * destruct (match_at r (c :: t)); [discriminate|]. now apply IH.
    + intros H. pose proof (H 0) as H0. simpl in H0. rewrite H0.
      apply IH. intros n. apply (H (S n)).
Qed.

Lemma search_from_found (r : regex) (g : groups) (n : nat) :
  forall s,
  match_at r (skipn n s) = Some g ->
  (forall m, m < n -> match_at r (skipn m s) = None) ->
  search_from r s = Some g.
Proof.
  induction n as [|n IH]; intros s Hn Hm.
  - simpl in Hn. destruct s; simpl; now rewrite Hn.
  - pose proof (Hm 0 (Nat.lt_0_succ n)) as H0. simpl in H0.
    destruct s as [|c t].
    + simpl in Hn. congruence.
    + simpl search_from. rewrite H0. apply IH; [exact Hn|].
      intros m Hlt. apply (Hm (S m)). lia.
Qed.

Lemma search_from_some (r : regex) (g : groups) :
  forall s, search_from r s = Some g ->
  exists n, match_at r (skipn n s) = Some g.
Proof.
  induction s as [|c t IH]; simpl search_from; intros H.
  - exists 0. simpl. destruct (match_at r []); congruence.
  - destruct (match_at r (c :: t)) eqn:E.
    + exists 0. simpl. congruence.
    + destruct (IH H) as [n Hn]. exists (S n). exact Hn.
Qed.

Lemma match_at_between (pre post s : str) :
  match_at (between_re true pre post) s =
  if Str.startswith s pre then
    match Str.cut (skipn (length pre) s) post with
    | Some (x, _) => Some [(1, x)]
    | None => None
    end
  else None.
Proof.
  unfold match_at, between_re. rewrite rmatch_lits.
  destruct (Str.startswith s pre); [|reflexivity].
  set (t := skipn (length pre) s).
  cbn [seq_of fold_right rmatch].
  rewrite (star_ext _ false (CAny true) _
             (fun s' => if Str.startswith s' post
                        then Some [(1, firstn (length t - length s') t)]
                        else None)).
  2:{ intros s'. rewrite <- (app_nil_r (lits post)), rmatch_lits.
      reflexivity. }
  rewrite (star_lazy_cut _ post (fun s' => [(1, firstn (length t - length s') t)])).
  destruct (Str.cut t post) as [[x y]|] eqn:Hc; [|reflexivity].
  apply cut_sound in Hc. do 3 f_equal.
  rewrite length_skipn.
  replace (length t - (length t - length x)) with (length x).
  - rewrite Hc, firstn_app, firstn_all, Nat.sub_diag. simpl. apply app_nil_r.
  - rewrite Hc, length_app. lia.
Qed.

Lemma skipn_past (a pre t : str) :
  skipn (length a + length pre) (a ++ pre ++ t) = t.
Proof.
  rewrite app_assoc, <- length_app. apply skipn_app_exact.
Qed.

(** The leftmost match of [pre(.*?)post] starts at the first [pre]. *)
Lemma search_between (pre post : str) :
  forall s,
  search_from (between_re true pre post) s =
  option_map (fun x => [(1, x)]) (between pre post s).
Proof.
  induction s as [|c t IH]; simpl search_from; rewrite match_at_between.
  - unfold between. simpl Str.cut.
    destruct (Str.startswith [] pre); [|reflexivity].
    destruct (Str.cut (skipn (length pre) []) post) as [[x y]|]; reflexivity.
  - rewrite IH. unfold between.
    destruct (Str.startswith (c :: t) pre) eqn:E.
    + rewrite (cut_here _ _ E).
      destruct (Str.cut (skipn (length pre) (c :: t)) post) as [[x y]|] eqn:Hp;
        [reflexivity|].
      destruct (Str.cut t pre) as [[a t']|] eqn:Hc; [|reflexivity].
      apply cut_sound in Hc.
      assert (t' = skipn (S (length a)) (skipn (length pre) (c :: t))) as ->.
      { rewrite skipn_skipn, Hc.
        change (c :: a ++ pre ++ t') with ((c :: a) ++ pre ++ t').
        change (S (length a)) with (length (c :: a)).
        now rewrite skipn_past. }
      now rewrite (cut_none_skipn _ _ _ Hp).
    + rewrite (cut_cons _ _ _ E).
      destruct (Str.cut t pre) as [[a t']|]; reflexivity.
Qed.

(** [re.search] on a tag pattern whose literal parts are plain. *)
Lemma search_tag_pattern (pre post s : str) :
  plain pre = true -> plain post = true ->
  search (pre ++ u "(.*?)" ++ post) s DOTALL =
  Return (option_map (fun x => [(1, x)]) (between pre post s)).
Proof.
  intros Hpre Hpost. unfold search, DOTALL.
  now rewrite (compile_between true _ _ Hpre Hpost), search_between.
Qed.

Lemma between_first_span (pre post text x : str) :
  between pre post text = Some x <->
  exists a b, first_span pre post text a x b.
Proof.
  unfold between, first_span. split.
  - destruct (Str.cut text pre) as [[a t]|] eqn:Hc; [|discriminate].
    destruct (Str.cut t post) as [[x' b]|] eqn:Hp; [|discriminate].
    intros [= ->]. exists a, b.
    pose proof (cut_sound _ _ _ _ Hp) as Et. rewrite <- Et.
    split; now apply cut_first_at.
  - intros (a & b & H1 & H2).
    apply cut_first_at in H1, H2. now rewrite H1, H2.
Qed.

Lemma between_none (pre post text : str) :
  between pre post text = None <-> ~ has_span pre post text.
Proof.
  unfold between, has_span. split.
  - intros H (a & x & b & E).
    destruct (Str.cut text pre) as [[a0 t]|] eqn:Hc.
    + destruct (Str.cut t post) as [[x' b']|] eqn:Hp; [discriminate|].
      pose proof (cut_sound _ _ _ _ Hc) as E0.
      pose proof (cut_leftmost _ _ _ _ Hc _ _ E) as L.
      (* the closing text of the span lies after the first [pre] *)
      apply cut_none in Hp. apply Hp.
      exists (skipn (length a0 + length pre) (a ++ pre ++ x)), b.
      assert (skipn (length a0 + length pre) text = t) as <-
        by (rewrite E0; apply skipn_past).
      rewrite E.
      replace (a ++ pre ++ x ++ post ++ b) with ((a ++ pre ++ x) ++ post ++ b)
        by now rewrite <- !app_assoc.
      rewrite skipn_app.
      replace (length a0 + length pre - length (a ++ pre ++ x)) with 0
        by (rewrite !length_app; lia).
      reflexivity.
    + apply cut_none in Hc. apply Hc. exists a, (x ++ post ++ b). exact E.
  - intros H.
    destruct (Str.cut text pre) as [[a t]|] eqn:Hc; [|reflexivity].
    destruct (Str.cut t post) as [[x b]|] eqn:Hp; [|reflexivity].
    exfalso. apply H. exists a, x, b.
    apply cut_sound in Hc, Hp. now rewrite Hc, Hp.
Qed.

Lemma compile_taglike : compile NOFLAGS (u "<[^>]*>") = Some taglike_re.
Proof. reflexivity. Qed.

Lemma not_in_class (m : str) :
  ~ In ">"%char m <-> forallb (cmatch (CNot ">")) m = true.
Proof.
  rewrite forallb_forall. split.
  - intros H x Hx. cbn [cmatch]. apply negb_true_iff.
    destruct (Ascii.eqb ">" x) eqn:E; [|reflexivity].
    apply Ascii.eqb_eq in E. subst x. contradiction.
  - intros H Hin. specialize (H _ Hin). cbn [cmatch] in H.
    now rewrite Ascii.eqb_refl in H.
Qed.

Lemma match_at_taglike_complete (m b : str) :
  ~ In ">"%char m ->
  match_at taglike_re (u "<" ++ m ++ u ">" ++ b) = Some [].
Proof.
  intros Hm. unfold match_at, taglike_re.
  cbn [seq_of fold_right rmatch cmatch u list_ascii_of_string app].
  rewrite Ascii.eqb_refl.
  apply star_greedy_longest.
  destruct (run_app_stops (cmatch (CNot ">")) m (">"%char :: b)) as [_ ->];
    [now apply not_in_class | cbn [stops cmatch]; now rewrite Ascii.eqb_refl | ].
  now rewrite Ascii.eqb_refl.
Qed.

Lemma match_at_taglike_some (s : str) (g : groups) :
  match_at taglike_re s = Some g ->
  exists m b, s = u "<" ++ m ++ u ">" ++ b /\ ~ In ">"%char m.
Proof.
  unfold match_at, taglike_re.
  cbn [seq_of fold_right rmatch cmatch u list_ascii_of_string app].
  destruct s as [|x t]; [discriminate|].
  destruct (Ascii.eqb "<" x) eqn:Ex; [|discriminate].
  apply Ascii.eqb_eq in Ex. subst x. intros H.
  apply star_greedy_some in H as (n & Hk & Hrun).
  exists (firstn n t), (tl (skipn n t)). split.
  - f_equal. rewrite <- (firstn_skipn n t) at 1. f_equal.
    destruct (skipn n t) as [|y r]; [discriminate|].
    destruct (Ascii.eqb ">" y) eqn:Ey; [|discriminate].
    apply Ascii.eqb_eq in Ey. now subst y.
  - now apply not_in_class.
Qed.

Lemma search_taglike (s : str) :
  search_from taglike_re s <> None <-> tag_like s.
Proof.
  split.
  - intros H. destruct (search_from taglike_re s) as [g|] eqn:E; [|congruence].
    apply search_from_some in E as [n Hn].
    apply match_at_taglike_some in Hn as (m & b & Es & Hm).
    exists (firstn n s), m, b. split; [|assumption].
    rewrite <- Es. symmetry. apply firstn_skipn.
  - intros (a & m & b & -> & Hm) H.
    rewrite search_from_none in H. specialize (H (length a)).
    rewrite skipn_app_exact, match_at_taglike_complete in H by assumption.
    discriminate.
Qed.

Lemma search_taglike_none (s : str) :
  search_from taglike_re s = None <-> ~ tag_like s.
Proof.
  rewrite <- search_taglike.
  destruct (search_from taglike_re s); split; intros H; try congruence.
  exfalso. apply H. discriminate.
Qed.

Lemma compile_sizes :
  compile NOFLAGS (u "Current length is (\d+) while limit is (\d+)") = Some sizes_re.
Proof. reflexivity. Qed.

Lemma plus_digits_last (t : str) (g : groups) (n : nat) :
  rmatch (RGroup n (seq_of [RPlus true CDigit])) t g (fun _ g' => Some g') =
  match take_run Str.isdigit t with
  | [] => None
  | m => Some ((n, m) :: g)
  end.
Proof.
  cbn [seq_of fold_right rmatch].
  destruct t as [|x t1]; [reflexivity|]. cbn [cmatch take_run].
  destruct (Str.isdigit x) eqn:Ex; [|reflexivity].
  erewrite star_greedy_longest; [|reflexivity].
  do 3 f_equal.
  pose proof (firstn_take_run Str.isdigit (x :: t1)) as F.
  cbn [take_run skip_run] in F. rewrite Ex in F. exact F.
Qed.

Lemma plus_digits_then (t : str) (g : groups) (n : nat)
      (K : str -> groups -> option groups) :
  (forall x t' g', Str.isdigit x = true -> K (x :: t') g' = None) ->
  rmatch (RGroup n (seq_of [RPlus true CDigit])) t g K =
  match take_run Str.isdigit t with
  | [] => None
  | m => K (skip_run Str.isdigit t) ((n, m) :: g)
  end.
Proof.
  intros HK. cbn [seq_of fold_right rmatch].
  destruct t as [|x t1]; [reflexivity|]. cbn [cmatch take_run skip_run].
  destruct (Str.isdigit x) eqn:Ex; [|reflexivity].
  rewrite star_greedy_run by (intros; now apply HK).
  do 3 f_equal.
  pose proof (firstn_take_run Str.isdigit (x :: t1)) as F.
  cbn [take_run skip_run] in F. rewrite Ex in F. exact F.
Qed.

Lemma digit_not_space (x : ascii) :
  Str.isdigit x = true -> Ascii.eqb " " x = false.
Proof.
  intros H. destruct (Ascii.eqb " " x) eqn:E; [|reflexivity].
  apply Ascii.eqb_eq in E. subst x. discriminate.
Qed.

Lemma rmatch_seq (A : Type) (r1 r2 : regex) (s : str) (g : groups)
      (k : str -> groups -> option A) :
  rmatch (RSeq r1 r2) s g k = rmatch r1 s g (fun s' g' => rmatch r2 s' g' k).
Proof. reflexivity. Qed.

Lemma rmatch_seq_empty (A : Type) (r : regex) (s : str) (g : groups)
      (k : str -> groups -> option A) :
  rmatch (RSeq r REmpty) s g k = rmatch r s g k.
Proof. reflexivity. Qed.

Lemma match_at_sizes (s : str) :
  match_at sizes_re s =
  option_map (fun nm => [(2, snd nm); (1, fst nm)]) (sizes_at s).
Proof.
  unfold match_at, sizes_re, sizes_at. rewrite rmatch_lits.
  destruct (Str.startswith s size_pre); [|reflexivity].
  set (t := skipn (length size_pre) s).
  change (seq_of (?r :: ?l)) with (RSeq r (seq_of l)).
  rewrite rmatch_seq, plus_digits_then.
  - destruct (take_run Str.isdigit t) as [|d n]; [reflexivity|].
    rewrite rmatch_lits.
    destruct (Str.startswith (skip_run Str.isdigit t) size_mid); [|reflexivity].
    change (seq_of [?r]) with (RSeq r REmpty).
    rewrite rmatch_seq_empty, plus_digits_last.
    destruct (take_run Str.isdigit _); reflexivity.
  - intros x t' g' Hx. rewrite rmatch_lits.
    unfold size_mid. cbn [u list_ascii_of_string Str.startswith].
    now rewrite (digit_not_space _ Hx).
Qed.

End ReFacts.

(* ================================================================== *)
(** ** The sizes in a context-window error *)

Module SizeFacts.
Import Re Spec StrFacts ReFacts.

Lemma int_acc_digits (s : str) :
  forallb Str.isdigit s = true ->
  forall acc,
  Str.int_acc acc s =
  Some (fold_left (fun acc c => (10 * acc + Str.digit_value c)%Z) s acc).
Proof.
  induction s as [|c t IH]; intros H acc; [reflexivity|].
  cbn [forallb] in H. apply andb_prop in H as [Hc Ht].
  cbn [Str.int_acc fold_left]. rewrite Hc. now apply IH.
Qed.

Lemma int_digits_cap (s : str) :
  digits s ->
  Str.int s =
  if Str.int_max_str_digits <? length s then Raise ValueError
  else Return (decimal s).
Proof.
  intros [Hne Hd]. unfold Str.int, decimal.
  destruct s as [|c t]; [congruence|]. now rewrite (int_acc_digits _ Hd).
Qed.

Lemma int_digits (s : str) :
  digits s -> within_cap s -> Str.int s = Return (decimal s).
Proof.
  intros Hd Hc. rewrite (int_digits_cap _ Hd).
  apply Nat.ltb_ge in Hc. now rewrite Hc.
Qed.

Lemma int_digits_over (s : str) :
  digits s -> ~ within_cap s -> Str.int s = Raise ValueError.
Proof.
  intros Hd Hc. rewrite (int_digits_cap _ Hd).
  unfold within_cap in Hc. apply Nat.nle_gt, Nat.ltb_lt in Hc. now rewrite Hc.
Qed.

Lemma sizes_at_report (s n m : str) :
  sizes_at s = Some (n, m) <-> exists b, size_report s [] n m b.
Proof.
  unfold sizes_at, size_report. split.
  - destruct (Str.startswith s size_pre) eqn:Es; [|discriminate].
    apply startswith_inv in Es.
    set (t := skipn (length size_pre) s) in *.
    destruct (take_run Str.isdigit t) as [|d n0] eqn:En; [discriminate|].
    destruct (Str.startswith (skip_run Str.isdigit t) size_mid) eqn:Em;
      [|discriminate].
    apply startswith_inv in Em.
    set (t2 := skipn (length size_mid) (skip_run Str.isdigit t)) in *.
    destruct (take_run Str.isdigit t2) as [|d2 m0] eqn:En2; [discriminate|].
    intros [= <- <-]. exists (skip_run Str.isdigit t2).
    repeat split.
    + cbn [app]. rewrite Es at 1. f_equal.
      rewrite (take_skip_run Str.isdigit t) at 1. rewrite En. f_equal.
      rewrite Em at 1. f_equal.
      rewrite (take_skip_run Str.isdigit t2) at 1. now rewrite En2.
    + discriminate.
    + rewrite <- En. apply take_run_all.
    + discriminate.
    + rewrite <- En2. apply take_run_all.
    + apply skip_run_stops.
  - intros (b & E & [Hn Hdn] & [Hm Hdm] & Hb). cbn [app] in E. subst s.
    rewrite startswith_app, skipn_app_exact.
    destruct (run_app_stops Str.isdigit n (size_mid ++ m ++ b) Hdn) as [-> ->];
      [reflexivity|].
    destruct n as [|d n]; [congruence|].
    rewrite startswith_app, skipn_app_exact.
    destruct (run_app_stops Str.isdigit m b Hdm Hb) as [-> _].
    destruct m; [congruence | reflexivity].
Qed.

Lemma size_report_shift (text n m b : str) (k : nat) :
  size_report (skipn k text) [] n m b ->
  size_report text (firstn k text) n m b.
Proof.
  intros (E & H). split; [|exact H].
  rewrite <- (firstn_skipn k text) at 1. f_equal. exact E.
Qed.

Lemma search_sizes (text : str) :
  search (u "Current length is (\d+) while limit is (\d+)") text NOFLAGS =
  Return (search_from sizes_re text).
Proof. unfold search. now rewrite compile_sizes. Qed.

Lemma context_sizes_absent (text : str) :
  ~ size_occurs text -> context_sizes text = Return (None, None).
Proof.
  intros H. unfold context_sizes. rewrite search_sizes. cbn [bind].
  destruct (search_from sizes_re text) as [g|] eqn:E; [|reflexivity].
  exfalso. apply H.
  apply search_from_some in E as [k Hk]. rewrite match_at_sizes in Hk.
  destruct (sizes_at (skipn k text)) as [[n m]|] eqn:Es; [|discriminate].
  apply sizes_at_report in Es as [b Hr].
  apply size_report_shift in Hr as (E & Hn & Hm & _).
  now exists (firstn k text), n, m, b.
Qed.

Lemma search_sizes_leftmost (text a n m b : str) :
  size_report text a n m b ->
  (forall a' n' m' b', size_report text a' n' m' b' -> length a <= length a') ->
  search_from sizes_re text = Some [(2, m); (1, n)].
Proof.
  intros Hr Hleft. apply (search_from_found _ _ (length a)).
  - rewrite match_at_sizes.
    assert (sizes_at (skipn (length a) text) = Some (n, m)) as ->; [|reflexivity].
    apply sizes_at_report. exists b.
    destruct Hr as (E & H). split; [|exact H].
    rewrite E. now rewrite skipn_app_exact.
  - intros k Hk. rewrite match_at_sizes.
    destruct (sizes_at (skipn k text)) as [[n' m']|] eqn:Es; [|reflexivity].
    exfalso. apply sizes_at_report in Es as [b' Hr'].
    apply size_report_shift, Hleft in Hr'.
    rewrite length_firstn in Hr'. lia.
Qed.

Lemma search_sizes_some (text : str) (g : groups) :
  search_from sizes_re text = Some g ->
  exists a n m b, g = [(2, m); (1, n)] /\ size_report text a n m b.
Proof.
  intros E. apply search_from_some in E as [k Hk]. rewrite match_at_sizes in Hk.
  destruct (sizes_at (skipn k text)) as [[n m]|] eqn:Es; [|discriminate].
  injection Hk as <-. apply sizes_at_report in Es as [b Hr].
  apply size_report_shift in Hr. now exists (firstn k text), n, m, b.
Qed.

(** The sizes of the leftmost report, when [int] converts both runs. *)
Lemma context_sizes_leftmost (text a n m b : str) :
  size_report text a n m b ->
  (forall a' n' m' b', size_report text a' n' m' b' -> length a <= length a') ->
  within_cap n -> within_cap m ->
  context_sizes text = Return (Some (decimal n), Some (decimal m)).
Proof.
  intros Hr Hleft Hcn Hcm. unfold context_sizes.
  rewrite search_sizes, (search_sizes_leftmost _ _ _ _ _ Hr Hleft). cbn [bind].
  destruct Hr as (_ & Hn & Hm & _).
  unfold int_group. cbn [group Nat.eqb].
  now rewrite (int_digits _ Hn Hcn), (int_digits _ Hm Hcm).
Qed.

(** A run beyond the cap makes the conversion, and so the parser, raise
    [ValueError]. *)
Lemma context_sizes_overflow (text a n m b : str) :
  size_report text a n m b ->
  (forall a' n' m' b', size_report text a' n' m' b' -> length a <= length a') ->
  ~ within_cap n \/ ~ within_cap m ->
  context_sizes text = Raise ValueError.
Proof.
  intros Hr Hleft Hover. unfold context_sizes.
  rewrite search_sizes, (search_sizes_leftmost _ _ _ _ _ Hr Hleft). cbn [bind].
  destruct Hr as (_ & Hn & Hm & _).
  unfold int_group. cbn [group Nat.eqb].
  rewrite (int_digits_cap _ Hn), (int_digits_cap _ Hm).
  destruct (Str.int_max_str_digits <? length n) eqn:En; [reflexivity|].
  cbn [bind].
  destruct (Str.int_max_str_digits <? length m) eqn:Em; [reflexivity|].
  exfalso. apply Nat.ltb_ge in En, Em. destruct Hover as [H | H]; now apply H.
Qed.

End SizeFacts.

(* ================================================================== *)
(** ** The steps of [extract] *)

Module ExtractFacts.
Import Re Spec StrFacts ReFacts.

Lemma plain_open_tag (tag : str) : plain tag = true -> plain (open_tag tag) = true.
Proof.
  intros H. unfold open_tag. rewrite !plain_app, H. reflexivity.
Qed.

Lemma plain_close_tag (tag : str) : plain tag = true -> plain (close_tag tag) = true.
Proof.
  intros H. unfold close_tag. rewrite !plain_app, H. reflexivity.
Qed.

Lemma plain_fence (tag : str) : plain tag = true -> plain (fence tag) = true.
Proof.
  intros H. unfold fence. rewrite !plain_app, H. reflexivity.
Qed.

Lemma outer_pattern (tag : str) :
  u "<" ++ tag ++ u ">(.*?)</" ++ tag ++ u ">" =
  open_tag tag ++ u "(.*?)" ++ close_tag tag.
Proof.
  unfold open_tag, close_tag. cbn [u list_ascii_of_string app].
  f_equal. rewrite <- app_assoc. reflexivity.
Qed.

Lemma inner_pattern (tag : str) :
  u "```" ++ tag ++ u "(.*?)```" = fence tag ++ u "(.*?)" ++ fence_end.
Proof.
  unfold fence, fence_end. cbn [u list_ascii_of_string app].
  reflexivity.
Qed.

Lemma group1_strip_one (x : str) : group1_strip [(1, x)] = Return (Str.strip x).
Proof. reflexivity. Qed.

(** The outer step, for a plain tag. *)
Lemma extract_outer_plain (self : StructuredContent) (tag text : str) :
  plain tag = true -> truthy (outer_tag self) = Some tag ->
  extract_outer self text =
  match between (open_tag tag) (close_tag tag) text with
  | Some x => Return (Str.strip x)
  | None => extract_unclosed self tag text
  end.
Proof.
  intros Hp Ht. unfold extract_outer. rewrite Ht, outer_pattern.
  rewrite search_tag_pattern by auto using plain_open_tag, plain_close_tag.
  cbn [bind]. now destruct (between _ _ text).
Qed.

Lemma extract_outer_none (self : StructuredContent) (text : str) :
  truthy (outer_tag self) = None -> extract_outer self text = Return text.
Proof. intros Ht. unfold extract_outer. now rewrite Ht. Qed.

(** The inner step, for a plain tag. *)
Lemma extract_inner_plain (self : StructuredContent) (tag content : str) :
  plain tag = true -> truthy (inner_tag self) = Some tag ->
  extract_inner self content =
  match between (fence tag) fence_end content with
  | Some x => Return (Str.strip x)
  | None => if fail_if_inner_tag self then Raise LLMParsingError
            else Return content
  end.
Proof.
  intros Hp Ht. unfold extract_inner. rewrite Ht, inner_pattern.
  rewrite search_tag_pattern by auto using plain_fence.
  cbn [bind]. now destruct (between _ _ content).
Qed.

Lemma extract_inner_none (self : StructuredContent) (content : str) :
  truthy (inner_tag self) = None -> extract_inner self content = Return content.
Proof. intros Ht. unfold extract_inner. now rewrite Ht. Qed.

(** Without the opening tag, [split] gives one segment and the unclosed
    path raises, whatever [fail_if_final_tag] says. *)
Lemma extract_unclosed_absent (self : StructuredContent) (tag text : str) :
  ~ occurs (open_tag tag) text ->
  extract_unclosed self tag text = Raise LLMParsingError.
Proof.
  intros H. apply cut_none in H. unfold extract_unclosed.
  change (u "<" ++ tag ++ u ">") with ("<"%char :: tag ++ u ">") in *.
  unfold open_tag in H. change (u "<" ++ tag ++ u ">") with ("<"%char :: tag ++ u ">") in H.
  rewrite split_unfold, H. cbn [bind length Nat.eqb].
  now rewrite orb_true_r.
Qed.

Lemma between_absent (pre post text : str) :
  ~ occurs pre text -> between pre post text = None.
Proof.
  intros H. apply cut_none in H. unfold between. now rewrite H.
Qed.

(** With [fail_if_final_tag] set, the unclosed path raises at once. *)
Lemma extract_unclosed_strict (self : StructuredContent) (tag text : str) :
  fail_if_final_tag self = true ->
  extract_unclosed self tag text = Raise LLMParsingError.
Proof.
  intros H. unfold extract_unclosed.
  change (u "<" ++ tag ++ u ">") with ("<"%char :: tag ++ u ">").
  rewrite split_unfold, H. reflexivity.
Qed.

Lemma up_to_segment (sep s x : str) : up_to sep s x <-> x = segment sep s.
Proof.
  unfold up_to, segment. split.
  - intros [[y H] | [H ->]].
    + apply cut_first_at in H. now rewrite H.
    + apply cut_none in H. now rewrite H.
  - intros ->. destruct (Str.cut s sep) as [[x y]|] eqn:Hc.
    + left. exists y. now apply cut_first_at.
    + right. split; [now apply cut_none | reflexivity].
Qed.

Lemma residual_check_tag_like (pm : str) :
  tag_like pm -> residual_check pm = Raise LLMParsingError.
Proof.
  intros H. unfold residual_check, search. rewrite compile_taglike. cbn [bind].
  apply search_taglike in H. now destruct (search_from taglike_re pm).
Qed.

Lemma residual_check_clean (pm : str) :
  ~ tag_like pm -> residual_check pm = Return pm.
Proof.
  intros H. unfold residual_check, search. rewrite compile_taglike. cbn [bind].
  apply search_taglike_none in H. now rewrite H.
Qed.

(** The retry on the next tag. *)
Lemma retry_split_found (pm next x y : str) :
  first_at (open_tag next) pm x y ->
  retry_split pm (open_tag next) = Return (Str.strip x).
Proof.
  intros H. apply cut_first_at in H. unfold retry_split.
  unfold open_tag in *.
  change (u "<" ++ next ++ u ">") with ("<"%char :: next ++ u ">") in *.
  rewrite split_unfold, H.
  destruct (split_rounds_head y ("<"%char :: next ++ u ">")) as [more ->].
  reflexivity.
Qed.

Lemma retry_split_single (pm sep : str) :
  sep <> [] -> ~ occurs sep pm ->
  retry_split pm sep = Raise LLMParsingError.
Proof.
  intros Hs H. apply cut_none in H. unfold retry_split.
  destruct sep as [|c sep]; [congruence|].
  rewrite split_unfold, H. reflexivity.
Qed.

(** With the opening tag present and [fail_if_final_tag] off, the
    unclosed path works on the segment after the first opening tag. *)
Lemma extract_unclosed_present (self : StructuredContent) (tag text a rest : str) :
  first_at (open_tag tag) text a rest ->
  fail_if_final_tag self = false ->
  extract_unclosed self tag text =
  (pm <- tentative self (segment (open_tag tag) rest) ;; residual_check pm).
Proof.
  intros H Hf. apply cut_first_at in H. unfold extract_unclosed.
  unfold open_tag in *.
  change (u "<" ++ tag ++ u ">") with ("<"%char :: tag ++ u ">") in *.
  rewrite split_unfold, H, Hf.
  destruct (split_rounds_head rest ("<"%char :: tag ++ u ">")) as [more ->].
  reflexivity.
Qed.

Lemma tentative_final (self : StructuredContent) (seg fm : str) :
  final_match self seg fm -> tentative self seg = Return fm.
Proof.
  intros [next x y Hn Hf Hx | Hk]; unfold tentative.
  - rewrite Hn, Hf. cbn [negb andb].
    assert (Str.contains (open_tag next) seg = true) as Hc.
    { apply contains_iff. exists x, y. apply Hx. }
    unfold open_tag in Hc. rewrite Hc. now apply retry_split_found with (y := y).
  - destruct (next_outer_tag self) as [next|]; [|reflexivity].
    destruct (Hk next eq_refl) as [-> | Habs]; [reflexivity|].
    apply contains_false in Habs. unfold open_tag in Habs. rewrite Habs.
    now rewrite andb_false_r.
Qed.

End ExtractFacts.

(* ================================================================== *)
(** ** More on [strip] *)

Module StripFacts.
Import Spec StrFacts Str.

Lemma lstrip_suffix (s : str) : exists l, s = l ++ lstrip s.
Proof.
  induction s as [|c t [l IH]]; [now exists []|]. cbn [lstrip].
  destruct (isspace c).
  - exists (c :: l). cbn [app]. now f_equal.
  - now exists [].
Qed.

Lemma lstrip_lstrip (s : str) : lstrip (lstrip s) = lstrip s.
Proof.
  induction s as [|c t IH]; [reflexivity|]. cbn [lstrip].
  destruct (isspace c) eqn:E; [exact IH|]. cbn [lstrip]. now rewrite E.
Qed.

Lemma lstrip_snoc (l : str) (c : ascii) :
  isspace c = false -> lstrip (l ++ [c]) = lstrip l ++ [c].
Proof.
  intros Hc. induction l as [|x l IH]; cbn [app lstrip].
  - now rewrite Hc.
  - destruct (isspace x); [exact IH | reflexivity].
Qed.

Lemma rstrip_prefix (s : str) : exists r, s = rstrip s ++ r.
Proof.
  unfold rstrip. destruct (lstrip_suffix (rev s)) as [l E].
  exists (rev l). apply (f_equal (@rev ascii)) in E.
  now rewrite rev_involutive, rev_app_distr in E.
Qed.

Lemma rstrip_keeps_start (s : str) : lstrip s = s -> lstrip (rstrip s) = rstrip s.
Proof.
  destruct s as [|c t]; [reflexivity|]. cbn [lstrip].
  destruct (isspace c) eqn:E.
  - intros H. exfalso.
    destruct (lstrip_suffix t) as [l Hl].
    apply (f_equal (@length ascii)) in H. apply (f_equal (@length ascii)) in Hl.
    rewrite length_app in Hl. cbn [length] in H. lia.
  - intros _. unfold rstrip. cbn [rev]. rewrite (lstrip_snoc _ _ E).
    rewrite rev_app_distr. cbn [rev app lstrip]. now rewrite E.
Qed.

(** Stripping twice is stripping once. *)
Lemma strip_strip (s : str) : strip (strip s) = strip s.
Proof.
  unfold strip.
  rewrite (rstrip_keeps_start _ (lstrip_lstrip s)).
  unfold rstrip. now rewrite rev_involutive, lstrip_lstrip.
Qed.

(** What [strip] returns is a part of the text. *)
Lemma strip_part (s : str) : exists l r, s = l ++ strip s ++ r.
Proof.
  unfold strip. destruct (lstrip_suffix s) as [l Hl].
  destruct (rstrip_prefix (lstrip s)) as [r Hr].
  exists l, r. now rewrite <- Hr.
Qed.

Lemma occurs_part (sep l t r : str) : occurs sep t -> occurs sep (l ++ t ++ r).
Proof.
  intros (a & b & ->). exists (l ++ a), (b ++ r).
  now rewrite <- !app_assoc.
Qed.

Lemma occurs_strip (sep s : str) : occurs sep (strip s) -> occurs sep s.
Proof.
  intros H. destruct (strip_part s) as (l & r & E). rewrite E.
  now apply occurs_part.
Qed.

Lemma occurs_longer (pre sep s : str) : occurs (sep ++ pre) s -> occurs sep s.
Proof.
  intros (a & b & ->). exists a, (pre ++ b). now rewrite <- app_assoc.
Qed.

(** The text before the first [sep] holds no [sep]. *)
Lemma first_at_clean (sep x b : str) :
  sep <> [] -> first_at sep (x ++ sep ++ b) x b -> ~ occurs sep x.
Proof.
  intros Hsep [_ Hmin] (a' & b' & E).
  assert (x ++ sep ++ b = a' ++ sep ++ b' ++ sep ++ b) as E2
    by (rewrite E, <- !app_assoc; reflexivity).
  apply Hmin in E2. rewrite E, !length_app in E2.
  destruct sep; [congruence|]. cbn [length] in E2. lia.
Qed.

Lemma lstrip_fixed_stops (s : str) :
  lstrip s = s -> Spec.stops isspace s.
Proof.
  destruct s as [|c t]; [intros _; exact I|]. cbn [lstrip Spec.stops].
  destruct (isspace c); [|reflexivity]. intros H. exfalso.
  destruct (lstrip_suffix t) as [l Hl].
  apply (f_equal (@length ascii)) in H. apply (f_equal (@length ascii)) in Hl.
  rewrite length_app in Hl. cbn [length] in H. lia.
Qed.

Lemma lstrip_split (s : str) :
  exists l, s = l ++ lstrip s /\ forallb isspace l = true.
Proof.
  induction s as [|c t (l & IH & Hl)]; [now exists []|]. cbn [lstrip].
  destruct (isspace c) eqn:E.
  - exists (c :: l). cbn [app forallb]. rewrite E, Hl. split; [now f_equal|reflexivity].
  - now exists [].
Qed.

Lemma forallb_rev (p : ascii -> bool) (l : str) :
  forallb p l = true -> forallb p (rev l) = true.
Proof.
  rewrite !forallb_forall. intros H x Hx. apply H. now apply in_rev.
Qed.

(** [strip] cuts whitespace off both ends, and all of it. *)
Lemma strip_trimmed (s : str) : Spec.trimmed s (strip s).
Proof.
  unfold Spec.trimmed, strip.
  destruct (lstrip_split s) as (l & Hl & Hsl).
  destruct (lstrip_split (rev (lstrip s))) as (r & Hr & Hsr).
  exists l, (rev r). repeat split.
  - rewrite Hl at 1. f_equal. unfold rstrip.
    apply (f_equal (@rev ascii)) in Hr.
    now rewrite rev_involutive, rev_app_distr in Hr.
  - exact Hsl.
  - now apply forallb_rev.
  - apply lstrip_fixed_stops, rstrip_keeps_start, lstrip_lstrip.
  - unfold rstrip. rewrite rev_involutive.
    apply lstrip_fixed_stops, lstrip_lstrip.
Qed.

End StripFacts.

(* ================================================================== *)
(** ** The extractor: properties *)

Import Spec StrFacts ReFacts SizeFacts ExtractFacts StripFacts.

(** In the unclosed path with the opening tag present and
    [fail_if_final_tag] off, [extract] is the tentative match, the
    residual-tag check and the inner step, in that order. *)
Lemma extract_fallback (self : StructuredContent) (tag text a rest seg : str) :
  plain tag = true ->
  truthy (outer_tag self) = Some tag ->
  ~ has_span (open_tag tag) (close_tag tag) text ->
  first_at (open_tag tag) text a rest ->
  fail_if_final_tag self = false ->
  up_to (open_tag tag) rest seg ->
  extract self text =
  (content <- (pm <- tentative self seg ;; residual_check pm) ;;
   extract_inner self content).
Proof.
  intros Hp Ho Hs Ha Hf Hu. unfold extract.
  apply between_none in Hs. apply up_to_segment in Hu. subst seg.
  rewrite (extract_outer_plain _ _ _ Hp Ho), Hs.
  now rewrite (extract_unclosed_present _ _ _ _ _ Ha Hf).
Qed.

(** The first scenario of the specification. *)
Example extract_prefix_hello_suffix :
  extract (mkStructuredContent (Some (u "r")) None None true true true)
          (u "prefix <r>hello</r> suffix") = Return (u "hello").
Proof. reflexivity. Qed.

(** The tag goes into the pattern as it is, so a tag with pattern syntax is
    read as a pattern: with the tag [.], the text below has no [<.>] and
    yet a match.  The statements below are about plain tags. *)
Example extract_tag_read_as_pattern :
  extract (mkStructuredContent (Some (u ".")) None None true true true)
          (u "<a>x</a>") = Return (u "x").
Proof. reflexivity. Qed.

(** C1.  With a plain outer tag (such as [tag]) and no inner tag, a text
    that contains a span [<tag>X</tag>] anywhere, whatever comes before
    and after it, has a first such span (the first [<tag>], closed by the
    nearest [</tag>]), and [extract] returns the content of that first
    span trimmed: cut free of the whitespace around it, and of nothing
    else. *)
Theorem extract_outer_tag_span (self : StructuredContent)
    (tag text a0 x0 b0 : str) :
  plain tag = true ->
  truthy (outer_tag self) = Some tag ->
  truthy (inner_tag self) = None ->
  text = a0 ++ open_tag tag ++ x0 ++ close_tag tag ++ b0 ->
  (exists a x b, first_span (open_tag tag) (close_tag tag) text a x b) /\
  (forall a x b,
     first_span (open_tag tag) (close_tag tag) text a x b ->
     exists out, extract self text = Return out /\ trimmed x out).
Proof.
  intros Hp Ho Hi E. split.
  - destruct (between (open_tag tag) (close_tag tag) text) as [x|] eqn:Hb.
    + apply between_first_span in Hb as (a & b & Hs). now exists a, x, b.
    + apply between_none in Hb. exfalso. apply Hb. now exists a0, x0, b0.
  - intros a x b Hs. exists (Str.strip x). split; [|apply strip_trimmed].
    assert (between (open_tag tag) (close_tag tag) text = Some x) as Hb
      by (apply between_first_span; eauto).
    unfold extract. rewrite (extract_outer_plain _ _ _ Hp Ho), Hb. cbn [bind].
    now apply extract_inner_none.
Qed.

Lemma extract_outer_tag_span_witness :
  extract (mkStructuredContent (Some (u "tag")) None None true true true)
          (u "noise <tag> X </tag> more </tag>") = Return (u "X") /\
  trimmed (u " X ") (u "X").
Proof.
  destruct (proj2 (extract_outer_tag_span
                     (mkStructuredContent (Some (u "tag")) None None
                                          true true true)
                     (u "tag") (u "noise <tag> X </tag> more </tag>")
                     (u "noise ") (u " X ") (u " more </tag>")
                     eq_refl eq_refl eq_refl eq_refl)
                  (u "noise ") (u " X ") (u " more </tag>"))
    as (out & Hret & Htrim).
  - split; apply cut_first_at; reflexivity.
  - vm_compute in Hret. injection Hret as <-. split; [reflexivity | exact Htrim].
Defined.

(** C5.  In the unclosed path (no well-formed span, opening tag present,
    [fail_if_final_tag] off), when a next outer tag is configured,
    [fail_if_next_outer_tag] is off and [<next_outer_tag>] occurs in the
    tentative match [seg]: the match becomes the part of [seg] before the
    first [<next_outer_tag>], stripped, and [extract] goes on with it (the
    residual-tag check, then the inner step).  The re-split itself raises
    [LLMParsingError] on a text that gives a single segment. *)
Theorem extract_next_tag_retry (self : StructuredContent)
    (tag next text a rest seg : str) :
  plain tag = true ->
  truthy (outer_tag self) = Some tag ->
  ~ has_span (open_tag tag) (close_tag tag) text ->
  first_at (open_tag tag) text a rest ->
  fail_if_final_tag self = false ->
  up_to (open_tag tag) rest seg ->
  next_outer_tag self = Some next ->
  fail_if_next_outer_tag self = false ->
  occurs (open_tag next) seg ->
  (exists x y,
     first_at (open_tag next) seg x y /\
     tentative self seg = Return (Str.strip x) /\
     (tag_like (Str.strip x) -> extract self text = Raise LLMParsingError) /\
     (~ tag_like (Str.strip x) ->
      extract self text = extract_inner self (Str.strip x))) /\
  (forall pm, ~ occurs (open_tag next) pm ->
     retry_split pm (open_tag next) = Raise LLMParsingError).
Proof.
  intros Hp Ho Hs Ha Hf Hu Hn Hfn Hocc. split.
  - destruct Hocc as (x0 & y0 & E).
    destruct (cut_complete _ _ _ _ E) as (x & y & Hc).
    apply cut_first_at in Hc. exists x, y. split; [exact Hc|].
    pose proof (tentative_final _ _ _ (final_retry self seg next x y Hn Hfn Hc))
      as Ht.
    split; [exact Ht|].
    rewrite (extract_fallback _ _ _ _ _ _ Hp Ho Hs Ha Hf Hu), Ht.
    cbn [bind]. split; intros Hl.
    + now rewrite residual_check_tag_like.
    + now rewrite residual_check_clean.
  - intros pm Habs. apply retry_split_single; [discriminate | exact Habs].
Qed.

Lemma extract_next_tag_retry_witness :
  let self := mkStructuredContent (Some (u "r")) None (Some (u "b"))
                                  false true false in
  let text := u "aa <r> hello <b> x" in
  let seg := u " hello <b> x" in
  (exists x y,
     first_at (open_tag (u "b")) seg x y /\
     tentative self seg = Return (Str.strip x) /\
     (tag_like (Str.strip x) -> extract self text = Raise LLMParsingError) /\
     (~ tag_like (Str.strip x) ->
      extract self text = extract_inner self (Str.strip x))) /\
  (forall pm, ~ occurs (open_tag (u "b")) pm ->
     retry_split pm (open_tag (u "b")) = Raise LLMParsingError).
Proof.
  intros self text seg.
  apply (extract_next_tag_retry self (u "r") (u "b") text (u "aa ") seg seg).
  - reflexivity.
  - reflexivity.
  - apply between_none. reflexivity.
  - apply cut_first_at. reflexivity.
  - reflexivity.
  - apply up_to_segment. reflexivity.
  - reflexivity.
  - reflexivity.
  - apply contains_iff. reflexivity.
Defined.

(** C6.  In the unclosed path, when the match it ends with (after the
    retry on the next tag, if that applies) still contains [<...>] with
    no [>] inside, [extract] raises [LLMParsingError] and returns
    nothing. *)
Theorem extract_residual_tag (self : StructuredContent)
    (tag text a rest seg fm : str) :
  plain tag = true ->
  truthy (outer_tag self) = Some tag ->
  ~ has_span (open_tag tag) (close_tag tag) text ->
  first_at (open_tag tag) text a rest ->
  fail_if_final_tag self = false ->
  up_to (open_tag tag) rest seg ->
  final_match self seg fm ->
  tag_like fm ->
  extract self text = Raise LLMParsingError.
Proof.
  intros Hp Ho Hs Ha Hf Hu Hm Ht.
  rewrite (extract_fallback _ _ _ _ _ _ Hp Ho Hs Ha Hf Hu).
  rewrite (tentative_final _ _ _ Hm). cbn [bind].
  now rewrite residual_check_tag_like.
Qed.

Lemma extract_residual_tag_witness :
  extract (mkStructuredContent (Some (u "r")) None None false true true)
          (u "aa <r> he<c>llo") = Raise LLMParsingError.
Proof.
  apply (extract_residual_tag _ (u "r") _ (u "aa ") (u " he<c>llo")
           (u " he<c>llo") (u " he<c>llo")).
  - reflexivity.
  - reflexivity.
  - apply between_none. reflexivity.
  - apply cut_first_at. reflexivity.
  - reflexivity.
  - apply up_to_segment. reflexivity.
  - apply final_keep. intros next H. discriminate H.
  - exists (u " he"), (u "c"), (u "llo"). split; [reflexivity|].
    intros [H | []]. discriminate H.
Defined.

(** X26.  With a plain outer tag and [fail_if_final_tag] on (the default),
    a text in which [<outer_tag>] does not occur makes [extract] raise
    [LLMParsingError]. *)
Theorem extract_strict_missing_open_tag (self : StructuredContent)
    (tag text : str) :
  plain tag = true ->
  truthy (outer_tag self) = Some tag ->
  fail_if_final_tag self = true ->
  ~ occurs (open_tag tag) text ->
  extract self text = Raise LLMParsingError.
Proof.
  intros Hp Ho Hf Habs. unfold extract.
  rewrite (extract_outer_plain _ _ _ Hp Ho), between_absent by assumption.
  now rewrite (extract_unclosed_strict _ _ _ Hf).
Qed.

Lemma extract_strict_missing_open_tag_witness :
  extract (mkStructuredContent (Some (u "r")) None None true true true)
          (u "hello </r>") = Raise LLMParsingError.
Proof.
  apply (extract_strict_missing_open_tag _ (u "r")).
  - reflexivity.
  - reflexivity.
  - reflexivity.
  - apply contains_false. reflexivity.
Defined.

(** X27.  With a plain outer tag and [fail_if_final_tag] off, a text in
    which [<outer_tag>] does not occur still makes [extract] raise
    [LLMParsingError]: the split on the opening tag has one segment. *)
Theorem extract_tolerant_missing_open_tag (self : StructuredContent)
    (tag text : str) :
  plain tag = true ->
  truthy (outer_tag self) = Some tag ->
  fail_if_final_tag self = false ->
  ~ occurs (open_tag tag) text ->
  extract self text = Raise LLMParsingError.
Proof.
  intros Hp Ho _ Habs. unfold extract.
  rewrite (extract_outer_plain _ _ _ Hp Ho), between_absent by assumption.
  now rewrite (extract_unclosed_absent _ _ _ Habs).
Qed.

Lemma extract_tolerant_missing_open_tag_witness :
  extract (mkStructuredContent (Some (u "r")) None None false true true)
          (u "hello </r>") = Raise LLMParsingError.
Proof.
  apply (extract_tolerant_missing_open_tag _ (u "r")).
  - reflexivity.
  - reflexivity.
  - reflexivity.
  - apply contains_false. reflexivity.
Defined.

(** C7.  The code breaks the claim on a tag with pattern syntax: the tag
    goes into the search pattern unescaped (there is no [re.escape]),
    while the split on the opening tag, a few lines below, takes it
    literally.  With the outer tag [.] and the default flags, [<.>] does
    not occur in [<a>x</a>], and [extract] returns [x] where the claim
    has it raise. *)
Lemma extract_strict_pattern_tag_returns :
  let self := mkStructuredContent (Some (u ".")) None None true true true in
  truthy (outer_tag self) = Some (u ".") /\
  fail_if_final_tag self = true /\
  ~ occurs (open_tag (u ".")) (u "<a>x</a>") /\
  extract self (u "<a>x</a>") = Return (u "x").
Proof.
  repeat split. apply contains_false. reflexivity.
Qed.

(** C10.  The same defect with [fail_if_final_tag] off: with the outer
    tag [.], [<.>] does not occur in [<a>x</a>], the pattern matches all
    the same, and [extract] returns [x] where the claim has it raise. *)
Lemma extract_tolerant_pattern_tag_returns :
  let self := mkStructuredContent (Some (u ".")) None None false true true in
  truthy (outer_tag self) = Some (u ".") /\
  fail_if_final_tag self = false /\
  ~ occurs (open_tag (u ".")) (u "<a>x</a>") /\
  extract self (u "<a>x</a>") = Return (u "x").
Proof.
  repeat split. apply contains_false. reflexivity.
Qed.

(** C8, as stated, fails: a content may hold several fenced blocks, and
    [extract] returns the body of the first one only.  Below, the block
    with the body [ B ] is in the content, and [extract] returns [A]. *)
Lemma extract_second_fence_ignored :
  let self := mkStructuredContent None (Some (u "json")) None true true true in
  let content := u "```json A ``` ```json B ```" in
  content = u "```json A ``` " ++ fence (u "json") ++ u " B " ++ fence_end ++ [] /\
  trimmed (u " B ") (u "B") /\
  extract self content = Return (u "A").
Proof.
  repeat split. exists (u " "), (u " "). repeat split.
Qed.

(** C8, amended.  With a plain inner tag (such as [json]), on the content
    the outer step leaves: if it contains a fenced block, it has a first
    one (the first fence marker, closed by the nearest fence) and
    [extract] returns the body of that first block trimmed: cut free of
    the whitespace around it, and of nothing else; if it contains none,
    [extract] raises [LLMParsingError] when [fail_if_inner_tag] is on and
    returns the content unchanged when it is off. *)
Theorem extract_inner_fence (self : StructuredContent)
    (tag text content : str) :
  plain tag = true ->
  truthy (inner_tag self) = Some tag ->
  extract_outer self text = Return content ->
  (has_span (fence tag) fence_end content ->
   exists a y b, first_span (fence tag) fence_end content a y b) /\
  (forall a y b,
     first_span (fence tag) fence_end content a y b ->
     exists out, extract self text = Return out /\ trimmed y out) /\
  (~ has_span (fence tag) fence_end content ->
   fail_if_inner_tag self = true ->
   extract self text = Raise LLMParsingError) /\
  (~ has_span (fence tag) fence_end content ->
   fail_if_inner_tag self = false ->
   extract self text = Return content).
Proof.
  intros Hp Hi Hout. unfold extract. rewrite Hout. cbn [bind].
  rewrite (extract_inner_plain _ _ _ Hp Hi). repeat split.
  - intros Hs.
    destruct (between (fence tag) fence_end content) as [y|] eqn:Hb.
    + apply between_first_span in Hb as (a & b & Hf). now exists a, y, b.
    + apply between_none in Hb. contradiction.
  - intros a y b Hs. exists (Str.strip y). split; [|apply strip_trimmed].
    assert (between (fence tag) fence_end content = Some y) as ->
      by (apply between_first_span; eauto).
    reflexivity.
  - intros Hs Hf. apply between_none in Hs. now rewrite Hs, Hf.
  - intros Hs Hf. apply between_none in Hs. now rewrite Hs, Hf.
Qed.

Lemma extract_inner_fence_witness :
  extract (mkStructuredContent None (Some (u "json")) None true true true)
          (u "Here: ```json {1: 2} ``` and ```json {3} ```") =
  Return (u "{1: 2}") /\
  trimmed (u " {1: 2} ") (u "{1: 2}").
Proof.
  destruct (proj1 (proj2 (extract_inner_fence
                     (mkStructuredContent None (Some (u "json")) None
                                          true true true)
                     (u "json")
                     (u "Here: ```json {1: 2} ``` and ```json {3} ```")
                     (u "Here: ```json {1: 2} ``` and ```json {3} ```")
                     eq_refl eq_refl eq_refl))
                  (u "Here: ") (u " {1: 2} ") (u " and ```json {3} ```"))
    as (out & Hret & Htrim).
  - split; apply cut_first_at; reflexivity.
  - vm_compute in Hret. injection Hret as <-. split; [reflexivity | exact Htrim].
Defined.

(** C9, as stated, fails.  With the outer tag [r], [extract] turns
    ["prefix <r>hello</r> suffix"] into ["hello"], which holds no tag and
    not even a bracket or a backquote; called on ["hello"] it raises
    [LLMParsingError].  The same happens without outer tag when the inner
    tag is [json] and [fail_if_inner_tag] is on.  And a tolerated inner
    tag with pattern syntax (a group around dot-star) is read as a
    pattern: the second
    call unwraps once more. *)
Lemma extract_twice_strict_raises :
  let outer := mkStructuredContent (Some (u "r")) None None true true true in
  let inner := mkStructuredContent None (Some (u "json")) None true true true in
  let patterned :=
    mkStructuredContent None (Some (u "(.*)")) None true false true in
  (extract outer (u "prefix <r>hello</r> suffix") = Return (u "hello") /\
   no_tags_remain outer (u "hello") /\
   ~ In "<"%char (u "hello") /\ ~ In "`"%char (u "hello") /\
   extract outer (u "hello") = Raise LLMParsingError) /\
  (extract inner (u "```json hello ```") = Return (u "hello") /\
   no_tags_remain inner (u "hello") /\
   extract inner (u "hello") = Raise LLMParsingError) /\
  (extract patterned (u "```a```b```c```") = Return (u "a```b```c") /\
   no_tags_remain patterned (u "a```b```c") /\
   extract patterned (u "a```b```c") = Return (u "b")).
Proof.
  repeat split.
  - intros tag [= <-]. apply contains_false. reflexivity.
  - intros tag [=].
  - intros H. cbn in H.
    repeat (destruct H as [H | H]; [discriminate H|]). exact H.
  - intros H. cbn in H.
    repeat (destruct H as [H | H]; [discriminate H|]). exact H.
  - intros tag [=].
  - intros tag [= <-]. apply contains_false. reflexivity.
  - intros tag [=].
  - intros tag [= <-]. apply contains_false. reflexivity.
Qed.

(** C9, amended.  Without an outer tag, and with the inner tag absent, or
    free of pattern syntax and tolerated ([fail_if_inner_tag] off),
    calling [extract] again on its own output, when no tag of the
    configuration remains in that output, returns the output
    unchanged. *)
Theorem extract_twice_tolerant (self : StructuredContent) (text out : str) :
  truthy (outer_tag self) = None ->
  (forall tag, truthy (inner_tag self) = Some tag ->
     plain tag = true /\ fail_if_inner_tag self = false) ->
  extract self text = Return out ->
  no_tags_remain self out ->
  extract self out = Return out.
Proof.
  intros Ho Hi _ [_ Hfence]. unfold extract.
  rewrite (extract_outer_none _ _ Ho). cbn [bind].
  destruct (truthy (inner_tag self)) as [tag|] eqn:Ht.
  - destruct (Hi tag eq_refl) as [Hp Hf].
    rewrite (extract_inner_plain _ _ _ Hp Ht).
    now rewrite (between_absent _ _ _ (Hfence tag eq_refl)), Hf.
  - now apply extract_inner_none.
Qed.

Lemma extract_twice_tolerant_witness :
  extract (mkStructuredContent None (Some (u "json")) None true false true)
          (u "hello") = Return (u "hello").
Proof.
  apply (extract_twice_tolerant _ (u "```json hello ```")).
  - reflexivity.
  - intros tag [= <-]. split; reflexivity.
  - reflexivity.
  - split.
    + intros tag [=].
    + intros tag [= <-]. apply contains_false. reflexivity.
Defined.

(* ================================================================== *)
(** ** The completion engine: properties *)

Section Completion.
Variable messages_t : Type.
Variable temperature_t : Type.
Variable client :
  str -> messages_t -> temperature_t -> nat -> option (list (str * str)) ->
  ModelResponse + litellm_exception.

Lemma py_or_requested (self : LLMEngine) (model : option str) :
  py_or model (self_model self) = requested self model.
Proof. now destruct model as [[|c m]|]. Qed.

(** C3.  When the provider client raises a rate-limit error, [completion]
    raises [NotteRateLimitError], and nothing else, with the requested
    model as provider: the [model] argument when it is given (and not
    empty), else the model of the engine. *)
Theorem completion_rate_limit (self : LLMEngine) (messages : messages_t)
    (model : option str) (temperature : temperature_t)
    (response_format : option (list (str * str))) (n : nat)
    (e : litellm_exception) :
  client (requested self model) messages temperature n response_format = inr e ->
  e_class e = RateLimitError ->
  completion client self messages model temperature response_format n =
  Raise (NotteRateLimitError (requested self model)).
Proof.
  intros Hc He. unfold completion, trace_llm_usage.
  rewrite py_or_requested, Hc. unfold classify. now rewrite He.
Qed.

(** X25.  What holds of the context-window handler.  When the provider
    client raises a context-window error whose text reports sizes, and
    both numbers of the leftmost report have at most 4300 digits,
    [completion]
    raises [ContextWindowExceededError] with these numbers,
    [current_size] the first and [max_size] the second; on
    ["Current length is 5000 while limit is 4096"] these are 5000 and
    4096.  If the pattern occurs nowhere in the text, both are [None]. *)
Theorem completion_context_window (self : LLMEngine) (messages : messages_t)
    (model : option str) (temperature : temperature_t)
    (response_format : option (list (str * str))) (n : nat)
    (e : litellm_exception) :
  client (requested self model) messages temperature n response_format = inr e ->
  e_class e = LiteLLMContextWindowExceededError ->
  let raised :=
    completion client self messages model temperature response_format n in
  (forall a cur lim b,
     size_report (e_str e) a cur lim b ->
     (forall a' cur' lim' b',
        size_report (e_str e) a' cur' lim' b' -> length a <= length a') ->
     within_cap cur -> within_cap lim ->
     raised = Raise (ContextWindowExceededError (requested self model)
                       (Some (decimal cur)) (Some (decimal lim)))) /\
  (e_str e = u "Current length is 5000 while limit is 4096" ->
   raised = Raise (ContextWindowExceededError (requested self model)
                     (Some 5000%Z) (Some 4096%Z))) /\
  (~ size_occurs (e_str e) ->
   raised = Raise (ContextWindowExceededError (requested self model) None None)).
Proof.
  intros Hc He raised.
  assert (raised = (sizes <- context_sizes (e_str e) ;;
                    Raise (ContextWindowExceededError (requested self model)
                             (fst sizes) (snd sizes)))) as ->.
  { unfold raised, completion, trace_llm_usage.
    rewrite py_or_requested, Hc. unfold classify. rewrite He. cbn [isinstance].
    now destruct (context_sizes (e_str e)). }
  split; [|split].
  - intros a cur lim b Hr Hleft Hc1 Hc2.
    now rewrite (context_sizes_leftmost _ _ _ _ _ Hr Hleft Hc1 Hc2).
  - intros ->. reflexivity.
  - intros Habs. now rewrite (context_sizes_absent _ Habs).
Qed.

End Completion.

Lemma completion_rate_limit_witness :
  completion
    (fun _ (_ : unit) (_ : unit) _ _ =>
       inr (mkException RateLimitError (u "rate limit")))
    (LLMEngine_init None) tt (Some (u "gpt")) tt None 1 =
  Raise (NotteRateLimitError (u "gpt")).
Proof.
  apply (completion_rate_limit unit unit
           (fun _ _ _ _ _ => inr (mkException RateLimitError (u "rate limit")))
           (LLMEngine_init None) tt (Some (u "gpt")) tt None 1
           (mkException RateLimitError (u "rate limit")));
    reflexivity.
Defined.

Lemma completion_context_window_witness :
  completion
    (fun _ (_ : unit) (_ : unit) _ _ =>
       inr (mkException LiteLLMContextWindowExceededError
              (u "Current length is 5000 while limit is 4096")))
    (LLMEngine_init None) tt None tt None 1 =
  Raise (ContextWindowExceededError (u "groq/llama-3.3-70b-versatile")
           (Some 5000%Z) (Some 4096%Z)).
Proof.
  refine (proj1 (completion_context_window unit unit
           (fun _ _ _ _ _ =>
              inr (mkException LiteLLMContextWindowExceededError
                     (u "Current length is 5000 while limit is 4096")))
           (LLMEngine_init None) tt None tt None 1
           (mkException LiteLLMContextWindowExceededError
              (u "Current length is 5000 while limit is 4096"))
           eq_refl eq_refl)
          [] (u "5000") (u "4096") [] _ _ _ _).
  - repeat split; try reflexivity; discriminate.
  - intros a' cur' lim' b' _. apply Nat.le_0_l.
  - apply Nat.leb_le. reflexivity.
  - apply Nat.leb_le. reflexivity.
Defined.

(** C2.  The code breaks the claim on a number of more than 4300 digits:
    the handler converts the digit runs with [int] outside any guard, the
    interpreter refuses the conversion with a [ValueError], and that
    error leaves [completion] in place of [ContextWindowExceededError].
    Below, the text matches the pattern with a first number of 4301
    digits. *)
Lemma completion_context_window_overflow :
  let text := size_pre ++ repeat "1"%char 4301 ++ size_mid ++ u "4096" in
  size_report text [] (repeat "1"%char 4301) (u "4096") [] /\
  completion
    (fun _ (_ : unit) (_ : unit) _ _ =>
       inr (mkException LiteLLMContextWindowExceededError text))
    (LLMEngine_init None) tt None tt None 1 = Raise ValueError.
Proof.
  repeat split; try discriminate; vm_compute; reflexivity.
Qed.

Section Structured.
Variable messages_t : Type.
Variable temperature_t : Type.
Variable temperature_zero : temperature_t.
Variable client :
  str -> messages_t -> temperature_t -> nat -> option (list (str * str)) ->
  ModelResponse + litellm_exception.
Variable T : Type.
Variable validate : str -> outcome T.

(** C4.  In [structured_completion], once the completion text has been
    stripped, extracted and stripped again into [content]: if [content]
    contains the marker of a fenced json block, it goes through the same
    extractor once more (an error of the extractor is raised as it is, a
    result is stripped and validated); if not, and [content] does not
    start with an opening brace or does not end with a closing one, the
    call raises [LLMParsingError]; and whenever the validation of the
    final text fails with [ValidationError], the call raises
    [LLMParsingError] in its place. *)
Theorem structured_completion_parsing (self : LLMEngine) (messages : messages_t)
    (model : option str) (raw first : str) :
  single_completion client self messages model temperature_zero
    (Some [(u "type", u "json_object")]) = Return (Some raw) ->
  extract (sc self) (Str.strip raw) = Return first ->
  let content := Str.strip first in
  let result :=
    structured_completion temperature_zero client validate self messages model in
  (occurs (u "```json") content ->
     (forall e, extract (sc self) content = Raise e -> result = Raise e) /\
     (forall again, extract (sc self) content = Return again ->
        (forall v, validate (Str.strip again) = Return v -> result = Return v) /\
        (validate (Str.strip again) = Raise ValidationError ->
         result = Raise LLMParsingError))) /\
  (~ occurs (u "```json") content ->
     (Str.startswith content (u "{") = false \/
      Str.endswith content (u "}") = false ->
      result = Raise LLMParsingError) /\
     (Str.startswith content (u "{") = true ->
      Str.endswith content (u "}") = true ->
      (forall v, validate content = Return v -> result = Return v) /\
      (validate content = Raise ValidationError ->
       result = Raise LLMParsingError))).
Proof.
  intros Hraw Hfirst content result.
  assert (result =
          (c <- (if Str.contains (u "```json") content then
                   again <- extract (sc self) content ;; Return (Str.strip again)
                 else if negb (Str.startswith content (u "{"))
                         || negb (Str.endswith content (u "}")) then
                   Raise LLMParsingError
                 else Return content) ;;
           match validate c with
           | Raise ValidationError => Raise LLMParsingError
           | r => r
           end)) as ->.
  { unfold result, structured_completion. rewrite Hraw. cbn [bind].
    unfold parse_structured. rewrite Hfirst. reflexivity. }
  split.
  - intros Hocc. apply contains_iff in Hocc. rewrite Hocc. split.
    + intros e ->. reflexivity.
    + intros again ->. cbn [bind]. split.
      * intros v ->. reflexivity.
      * intros ->. reflexivity.
  - intros Habs. apply contains_false in Habs. rewrite Habs. split.
    + intros [-> | ->]; [reflexivity | now rewrite orb_true_r].
    + intros -> ->. cbn [negb orb bind]. split.
      * intros v ->. reflexivity.
      * intros ->. reflexivity.
Qed.

End Structured.

Lemma structured_completion_parsing_witness :
  let client := fun (_ : str) (_ : unit) (_ : unit) (_ : nat)
                    (_ : option (list (str * str))) =>
                  @inl ModelResponse litellm_exception
                       (mkModelResponse [Some (u " ```json {oops ")]) in
  let validate := fun _ : str => @Raise Z ValidationError in
  structured_completion tt client validate (LLMEngine_init None) tt None =
  Raise LLMParsingError.
Proof.
  intros client validate.
  refine (proj2 (proj2 (proj1
            (structured_completion_parsing unit unit tt client Z validate
               (LLMEngine_init None) tt None
               (u " ```json {oops ") (u "```json {oops") eq_refl eq_refl) _)
            (u "```json {oops") eq_refl) eq_refl).
  apply contains_iff. reflexivity.
Defined.

(* ================================================================== *)
(** ** Further properties of the engine and of the extractor *)


Module CompletionFacts.

Lemma digit_value_nonneg (c : ascii) :
  Str.isdigit c = true -> (0 <= Str.digit_value c)%Z.
Proof.
  unfold Str.isdigit, Str.digit_value. intros H.
  apply andb_prop in H as [H _]. apply Nat.leb_le in H. lia.
Qed.

Lemma fold_digits_nonneg (s : str) :
  forallb Str.isdigit s = true ->
  forall acc, (0 <= acc)%Z ->
  (0 <= fold_left (fun a c => (10 * a + Str.digit_value c)%Z) s acc)%Z.
Proof.
  induction s as [|c t IH]; intros H acc Hacc; [exact Hacc|].
  cbn [forallb] in H. apply andb_prop in H as [Hc Ht]. cbn [fold_left].
  apply IH; [exact Ht|]. pose proof (digit_value_nonneg _ Hc). lia.
Qed.

Lemma decimal_nonneg (s : str) : digits s -> (0 <= decimal s)%Z.
Proof. intros [_ H]. now apply fold_digits_nonneg. Qed.

(** The size parser gives both sizes or none, or it raises [ValueError]
    on a report with a digit run beyond the cap of [int]. *)
Lemma context_sizes_cases (text : str) :
  (exists c m, context_sizes text = Return (c, m) /\ sizes_ok c m) \/
  (context_sizes text = Raise ValueError /\
   exists a n m b,
     size_report text a n m b /\ (~ within_cap n \/ ~ within_cap m)).
Proof.
  unfold context_sizes. rewrite search_sizes. cbn [bind].
  destruct (Re.search_from sizes_re text) as [g|] eqn:E.
  - apply search_sizes_some in E as (a & n & m & b & -> & Hr).
    pose proof Hr as (_ & Hn & Hm & _).
    unfold int_group. cbn [Re.group Nat.eqb].
    rewrite (int_digits_cap _ Hn), (int_digits_cap _ Hm).
    destruct (Str.int_max_str_digits <? length n) eqn:En.
    + right. split; [reflexivity|]. exists a, n, m, b. split; [exact Hr|].
      left. unfold within_cap. apply Nat.ltb_lt in En. lia.
    + cbn [bind]. destruct (Str.int_max_str_digits <? length m) eqn:Em.
      * right. split; [reflexivity|]. exists a, n, m, b. split; [exact Hr|].
        right. unfold within_cap. apply Nat.ltb_lt in Em. lia.
      * left. exists (Some (decimal n)), (Some (decimal m)).
        split; [reflexivity|]. split; now apply decimal_nonneg.
  - left. exists None, None. split; [reflexivity | exact I].
Qed.

Lemma context_sizes_result (text : str) :
  (exists c m, context_sizes text = Return (c, m)) \/
  context_sizes text = Raise ValueError.
Proof.
  destruct (context_sizes_cases text) as [(c & m & H & _) | [H _]]; eauto.
Qed.

(** Every handler of [completion] ends in an error of the taxonomy, but
    for the [ValueError] of the size parser. *)
Lemma classify_cases (model : str) (e : litellm_exception) :
  (exists err, classify model e = Return err /\ provider_error err) \/
  (classify model e = Raise ValueError /\
   e_class e = LiteLLMContextWindowExceededError /\
   exists a n m b,
     size_report (e_str e) a n m b /\ (~ within_cap n \/ ~ within_cap m)).
Proof.
  unfold classify.
  destruct (e_class e) eqn:He; cbn [isinstance];
    try (left;
         repeat match goal with
                | |- context [if ?b then _ else _] => destruct b
                end;
         eexists; (split; [reflexivity | exact I])).
  destruct (context_sizes_cases (e_str e)) as [(c & m & -> & _) | [-> Hr]].
  - left. cbn [bind]. eexists. split; [reflexivity | exact I].
  - right. now repeat split.
Qed.

End CompletionFacts.
Import CompletionFacts.

(** The two ways the size parser can end, in a goal about [classify]. *)
Ltac sizes_branch :=
  match goal with
  | |- context [context_sizes ?t] =>
      destruct (context_sizes_result t) as [(?c & ?m & ->) | ->]; cbn [bind]
  end.

Section CompletionMore.
Variable messages_t : Type.
Variable temperature_t : Type.
Variable client :
  str -> messages_t -> temperature_t -> nat -> option (list (str * str)) ->
  ModelResponse + litellm_exception.

Lemma completion_raised (self : LLMEngine) (messages : messages_t)
    (model : option str) (temperature : temperature_t)
    (response_format : option (list (str * str))) (n : nat)
    (e : litellm_exception) :
  client (requested self model) messages temperature n response_format = inr e ->
  completion client self messages model temperature response_format n =
  (err <- classify (requested self model) e ;; Raise err).
Proof.
  intros Hc. unfold completion, trace_llm_usage.
  now rewrite py_or_requested, Hc.
Qed.

(** X1.  When the provider client raises an authentication error,
    [completion] raises [InvalidAPIKeyError] with the requested model as
    provider. *)
Theorem completion_authentication (self : LLMEngine) (messages : messages_t)
    (model : option str) (temperature : temperature_t)
    (response_format : option (list (str * str))) (n : nat)
    (e : litellm_exception) :
  client (requested self model) messages temperature n response_format = inr e ->
  e_class e = AuthenticationError ->
  completion client self messages model temperature response_format n =
  Raise (InvalidAPIKeyError (requested self model)).
Proof.
  intros Hc He. rewrite (completion_raised _ _ _ _ _ _ _ Hc).
  unfold classify. now rewrite He.
Qed.

(** X2.  Whatever exception of the modelled classes the provider client
    raises, [completion] raises an error of the provider taxonomy, with
    one exception: on a context-window error whose text reports a number
    of more than 4300 digits it raises the [ValueError] of [int]. *)
Theorem completion_raises_provider_error (self : LLMEngine)
    (messages : messages_t) (model : option str) (temperature : temperature_t)
    (response_format : option (list (str * str))) (n : nat)
    (e : litellm_exception) :
  client (requested self model) messages temperature n response_format = inr e ->
  exists err,
    completion client self messages model temperature response_format n =
    Raise err /\
    (provider_error err \/
     (err = ValueError /\
      e_class e = LiteLLMContextWindowExceededError /\
      exists a cur lim b,
        size_report (e_str e) a cur lim b /\
        (~ within_cap cur \/ ~ within_cap lim))).
Proof.
  intros Hc. rewrite (completion_raised _ _ _ _ _ _ _ Hc).
  destruct (classify_cases (requested self model) e)
    as [(err & -> & Hp) | (-> & He & Hr)].
  - exists err. split; [reflexivity | now left].
  - exists ValueError. split; [reflexivity | right; auto].
Qed.

(** X3.  Whenever [completion] raises a [ContextWindowExceededError], its
    [current_size] and [max_size] are both present or both absent, and
    never negative. *)
Theorem completion_context_window_sizes (self : LLMEngine)
    (messages : messages_t) (model : option str) (temperature : temperature_t)
    (response_format : option (list (str * str))) (n : nat)
    (provider : str) (current_size max_size : option Z) :
  completion client self messages model temperature response_format n =
  Raise (ContextWindowExceededError provider current_size max_size) ->
  sizes_ok current_size max_size.
Proof.
  unfold completion, trace_llm_usage.
  destruct (client _ _ _ _ _) as [response|e]; [discriminate|].
  unfold classify.
  destruct (e_class e); cbn [isinstance];
    repeat match goal with
           | |- context [if ?b then _ else _] => destruct b
           end;
    cbn [bind]; try (intros H; discriminate H).
  destruct (context_sizes_cases (e_str e)) as [(c & m & -> & Hok) | [-> _]];
    cbn [bind]; [|intros H; discriminate H].
  intros [= _ <- <-]. exact Hok.
Qed.

(** X4.  [completion] raises [ModelDoesNotSupportImageError] exactly when
    the client's error is a bad request (and not a context-window error,
    which is handled before) whose text contains
    ["Input should be a valid string"]. *)
Theorem completion_image_error_iff (self : LLMEngine)
    (messages : messages_t) (model : option str) (temperature : temperature_t)
    (response_format : option (list (str * str))) (n : nat)
    (e : litellm_exception) :
  client (requested self model) messages temperature n response_format = inr e ->
  (completion client self messages model temperature response_format n =
   Raise (ModelDoesNotSupportImageError (requested self model)) <->
   e_class e = BadRequestError /\ occurs image_phrase (e_str e)).
Proof.
  intros Hc. rewrite (completion_raised _ _ _ _ _ _ _ Hc). unfold classify.
  rewrite <- contains_iff.
  destruct (e_class e); cbn [isinstance]; try sizes_branch; cbn [bind];
    try (split; [discriminate | intros [H _]; discriminate H]).
  - fold image_phrase.
    destruct (Str.contains image_phrase (e_str e)); cbn [bind].
    + split; auto.
    + split; [discriminate | intros [_ H]; discriminate H].
  - destruct (Str.contains (u "credit balance is too low") (e_str e));
      cbn [bind]; split; try discriminate; intros [H _]; discriminate H.
Qed.

(** X5.  [completion] raises an [LLMProviderError] with
    [should_retry_later] off exactly for a bad request (not a
    context-window error) whose text lacks the image phrase. *)
Theorem completion_no_retry_iff (self : LLMEngine)
    (messages : messages_t) (model : option str) (temperature : temperature_t)
    (response_format : option (list (str * str))) (n : nat)
    (e : litellm_exception) :
  client (requested self model) messages temperature n response_format = inr e ->
  ((exists dev user agent,
      completion client self messages model temperature response_format n =
      Raise (LLMProviderError dev user agent false)) <->
   e_class e = BadRequestError /\ ~ occurs image_phrase (e_str e)).
Proof.
  intros Hc. rewrite (completion_raised _ _ _ _ _ _ _ Hc). unfold classify.
  rewrite <- contains_false.
  destruct (e_class e); cbn [isinstance]; try sizes_branch; cbn [bind];
    try (split; [intros (d & us & a & H); discriminate H
                | intros [H _]; discriminate H]).
  - fold image_phrase.
    destruct (Str.contains image_phrase (e_str e)); cbn [bind].
    + split; [intros (d & us & a & H); discriminate H
             | intros [_ H]; discriminate H].
    + split; [auto | intros _; eauto].
  - destruct (Str.contains (u "credit balance is too low") (e_str e));
      cbn [bind];
      (split; [intros (d & us & a & H); discriminate H
              | intros [H _]; discriminate H]).
Qed.

(** X6.  [completion] raises [InsufficentCreditsError] exactly when the
    client's error is of none of the five named classes and its text
    contains ["credit balance is too low"]: the phrase in a rate-limit,
    authentication, bad-request or API error changes nothing. *)
Theorem completion_credits_iff (self : LLMEngine)
    (messages : messages_t) (model : option str) (temperature : temperature_t)
    (response_format : option (list (str * str))) (n : nat)
    (e : litellm_exception) :
  client (requested self model) messages temperature n response_format = inr e ->
  (completion client self messages model temperature response_format n =
   Raise InsufficentCreditsError <->
   e_class e = Exception /\ occurs credit_phrase (e_str e)).
Proof.
  intros Hc. rewrite (completion_raised _ _ _ _ _ _ _ Hc). unfold classify.
  rewrite <- contains_iff.
  destruct (e_class e); cbn [isinstance]; try sizes_branch; cbn [bind];
    try (split; [discriminate | intros [H _]; discriminate H]).
  - destruct (Str.contains (u "Input should be a valid string") (e_str e));
      cbn [bind]; split; try discriminate; intros [H _]; discriminate H.
  - fold credit_phrase.
    destruct (Str.contains credit_phrase (e_str e)); cbn [bind].
    + split; auto.
    + split; [discriminate | intros [_ H]; discriminate H].
Qed.

End CompletionMore.

Section CompletionTaxonomy.
Variable messages_t : Type.
Variable temperature_t : Type.
Variable client :
  str -> messages_t -> temperature_t -> nat -> option (list (str * str)) ->
  ModelResponse + litellm_exception.

(** X7.  [completion] raises an [LLMProviderError] with
    [should_retry_later] on exactly for an API error, or for an error of
    none of the named classes whose text lacks the credit phrase. *)
Theorem completion_retry_iff (self : LLMEngine)
    (messages : messages_t) (model : option str) (temperature : temperature_t)
    (response_format : option (list (str * str))) (n : nat)
    (e : litellm_exception) :
  client (requested self model) messages temperature n response_format = inr e ->
  ((exists dev user agent,
      completion client self messages model temperature response_format n =
      Raise (LLMProviderError dev user agent true)) <->
   e_class e = APIError \/
   (e_class e = Exception /\ ~ occurs credit_phrase (e_str e))).
Proof.
  intros Hc. rewrite (completion_raised _ _ client _ _ _ _ _ _ _ Hc).
  unfold classify. rewrite <- contains_false.
  destruct (e_class e); cbn [isinstance]; try sizes_branch; cbn [bind];
    try (split; [intros (d & us & a & H); discriminate H
                | intros [H | [H _]]; discriminate H]).
  - destruct (Str.contains (u "Input should be a valid string") (e_str e));
      cbn [bind];
      (split; [intros (d & us & a & H); discriminate H
              | intros [H | [H _]]; discriminate H]).
  - split; [auto | intros _; eauto].
  - fold credit_phrase.
    destruct (Str.contains credit_phrase (e_str e)); cbn [bind].
    + split; [intros (d & us & a & H); discriminate H
             | intros [H | [_ H]]; discriminate H].
    + split; [auto | intros _; eauto].
Qed.

(** X8.  Every error of [completion] that carries a provider or model id
    carries the requested model: the [model] argument when given and not
    empty, else the model of the engine. *)
Theorem completion_provider_is_requested (self : LLMEngine)
    (messages : messages_t) (model : option str) (temperature : temperature_t)
    (response_format : option (list (str * str))) (n : nat) (err : exn) :
  completion client self messages model temperature response_format n =
  Raise err ->
  match err with
  | NotteRateLimitError provider
  | InvalidAPIKeyError provider
  | ContextWindowExceededError provider _ _
  | ModelDoesNotSupportImageError provider => provider = requested self model
  | _ => True
  end.
Proof.
  unfold completion, trace_llm_usage. rewrite py_or_requested.
  destruct (client _ _ _ _ _) as [response|e]; [discriminate|].
  unfold classify.
  destruct (e_class e); cbn [isinstance]; try sizes_branch; cbn [bind];
    repeat match goal with
           | |- context [if ?b then _ else _] => destruct b
           end;
    cbn [bind]; intros [= <-]; auto.
Qed.

End CompletionTaxonomy.

Module EngineFacts.

Lemma requested_twice (self : LLMEngine) (model : option str) :
  requested self (Some (requested self model)) = requested self model.
Proof.
  unfold requested. destruct model as [[|c m]|]; try reflexivity;
    now destruct (self_model self).
Qed.

(** The extractor of an engine: the stripped body of the first fenced json
    block, or the text as it is. *)
Lemma engine_extract (m : option str) (text : str) :
  extract (sc (LLMEngine_init m)) text =
  Return (match between (fence (u "json")) fence_end text with
          | Some y => Str.strip y
          | None => text
          end).
Proof.
  unfold extract. cbn [LLMEngine_init sc].
  rewrite extract_outer_none by reflexivity. cbn [bind].
  rewrite (extract_inner_plain _ (u "json")) by reflexivity.
  now destruct (between _ _ text).
Qed.

(** The body of a fenced block holds no fence marker, stripped or not. *)
Lemma body_without_marker (tag text a y b : str) :
  first_span (fence tag) fence_end text a y b ->
  ~ occurs (fence tag) (Str.strip y).
Proof.
  intros [_ H] Hocc. apply first_at_clean in H; [|discriminate].
  apply H. apply occurs_strip in Hocc. unfold fence in Hocc.
  change (u "```") with fence_end in Hocc. now apply occurs_longer in Hocc.
Qed.

Lemma validated_not_validation_error (T : Type) (validate : str -> outcome T)
      (c : str) :
  validated validate c <> Raise ValidationError.
Proof.
  unfold validated. destruct (validate c) as [v|e|]; try discriminate.
  destruct e; discriminate.
Qed.

Lemma requested_init_not_empty (m model : option str) :
  requested (LLMEngine_init m) model <> [].
Proof.
  unfold requested. destruct model as [[|c t]|]; try discriminate;
    cbn; unfold py_or; destruct m as [[|c t]|]; discriminate.
Qed.

End EngineFacts.
Import EngineFacts.

Section StructuredMore.
Variable messages_t : Type.
Variable temperature_t : Type.
Variable temperature_zero : temperature_t.
Variable client :
  str -> messages_t -> temperature_t -> nat -> option (list (str * str)) ->
  ModelResponse + litellm_exception.
Variable T : Type.
Variable validate : str -> outcome T.

Lemma single_completion_once (self : LLMEngine) (messages : messages_t)
    (model : option str) (temperature : temperature_t)
    (response_format : option (list (str * str))) :
  single_completion client self messages model temperature response_format =
  (response <- completion client self messages model temperature
                 response_format 1 ;;
   match choices response with
   | content :: _ => Return content
   | [] => Raise IndexError
   end).
Proof.
  unfold single_completion, completion, trace_llm_usage.
  rewrite !py_or_requested, requested_twice.
  destruct (client _ _ _ _ _) as [response|e]; cbn [bind].
  - now destruct (choices response).
  - now destruct (classify (requested self model) e).
Qed.

(** X9.  When the client answers, [single_completion] asks it for one
    choice with the requested model and returns the content of the first
    choice as it is (not stripped, [None] included); with no choice at
    all it raises [IndexError]. *)
Theorem single_completion_first_choice (self : LLMEngine)
    (messages : messages_t) (model : option str) (temperature : temperature_t)
    (response_format : option (list (str * str))) (response : ModelResponse) :
  client (requested self model) messages temperature 1 response_format =
  inl response ->
  (forall content rest, choices response = content :: rest ->
     single_completion client self messages model temperature response_format =
     Return content) /\
  (choices response = [] ->
     single_completion client self messages model temperature response_format =
     Raise IndexError).
Proof.
  intros Hc. rewrite single_completion_once.
  unfold completion, trace_llm_usage. rewrite py_or_requested, Hc. cbn [bind].
  split; [intros content rest -> | intros ->]; reflexivity.
Qed.

(** X10.  An error [completion] raises goes through [single_completion]
    and [structured_completion] unchanged. *)
Theorem structured_completion_propagates (self : LLMEngine)
    (messages : messages_t) (model : option str) (err : exn) :
  completion client self messages model temperature_zero json_object 1 =
  Raise err ->
  single_completion client self messages model temperature_zero json_object =
  Raise err /\
  structured_completion temperature_zero client validate self messages model =
  Raise err.
Proof.
  intros H. unfold structured_completion. fold json_object.
  rewrite single_completion_once, H. split; reflexivity.
Qed.

(** X11.  When the client answers without any choice,
    [structured_completion] raises [IndexError]; when the first choice has
    no content, it raises [AttributeError] (from [None.strip()]). *)
Theorem structured_completion_no_content (self : LLMEngine)
    (messages : messages_t) (model : option str) (response : ModelResponse) :
  client (requested self model) messages temperature_zero 1 json_object =
  inl response ->
  (choices response = [] ->
   structured_completion temperature_zero client validate self messages model =
   Raise IndexError) /\
  (forall rest, choices response = None :: rest ->
   structured_completion temperature_zero client validate self messages model =
   Raise AttributeError).
Proof.
  intros Hc. unfold structured_completion. fold json_object.
  rewrite single_completion_once.
  unfold completion, trace_llm_usage. rewrite py_or_requested, Hc. cbn [bind].
  split; [intros -> | intros rest ->]; reflexivity.
Qed.

(** What [structured_completion] does with the text of an engine built by
    [__init__]. *)
Lemma parse_structured_engine (m : option str) (raw : str) :
  parse_structured validate (LLMEngine_init m) raw =
  let text := Str.strip raw in
  match between (fence (u "json")) fence_end text with
  | Some y =>
      if braced (Str.strip y) then validated validate (Str.strip y)
      else Raise LLMParsingError
  | None =>
      if Str.contains (fence (u "json")) text then validated validate text
      else if braced text then validated validate text
      else Raise LLMParsingError
  end.
Proof.
  unfold parse_structured. rewrite engine_extract. cbn [bind].
  change (u "```json") with (fence (u "json")).
  destruct (between (fence (u "json")) fence_end (Str.strip raw)) as [y|] eqn:Hb;
    cbv zeta; cbn [bind]; rewrite strip_strip.
  - apply between_first_span in Hb as (a & b & Hs).
    apply body_without_marker, contains_false in Hs. rewrite Hs.
    unfold braced.
    destruct (Str.startswith _ (u "{")), (Str.endswith _ (u "}")); reflexivity.
  - destruct (Str.contains (fence (u "json")) (Str.strip raw)).
    + rewrite engine_extract, Hb. cbn [bind]. now rewrite strip_strip.
    + unfold braced.
      destruct (Str.startswith _ (u "{")), (Str.endswith _ (u "}")); reflexivity.
Qed.

(** X12.  For an engine built by [__init__]: when the stripped completion
    text has a fenced json block, [structured_completion] validates the
    stripped body of the first block if that body starts with an opening
    brace and ends with a closing one, and raises [LLMParsingError]
    without validating it otherwise (a fenced JSON array, for one). *)
Theorem structured_completion_fenced (m : option str) (messages : messages_t)
    (model : option str) (raw a y b : str) :
  single_completion client (LLMEngine_init m) messages model temperature_zero
    json_object = Return (Some raw) ->
  first_span (fence (u "json")) fence_end (Str.strip raw) a y b ->
  structured_completion temperature_zero client validate (LLMEngine_init m)
    messages model =
  if braced (Str.strip y) then validated validate (Str.strip y)
  else Raise LLMParsingError.
Proof.
  intros Hraw Hs. unfold structured_completion. fold json_object.
  rewrite Hraw. cbn [bind]. rewrite parse_structured_engine. cbv zeta.
  assert (between (fence (u "json")) fence_end (Str.strip raw) = Some y) as ->
    by (apply between_first_span; eauto).
  reflexivity.
Qed.

(** X13.  For an engine built by [__init__]: when the stripped completion
    text has the marker of a fenced json block but no complete block, the
    second extraction changes nothing and [structured_completion]
    validates the stripped text itself, without the brace check. *)
Theorem structured_completion_unclosed_fence (m : option str)
    (messages : messages_t) (model : option str) (raw : str) :
  single_completion client (LLMEngine_init m) messages model temperature_zero
    json_object = Return (Some raw) ->
  ~ has_span (fence (u "json")) fence_end (Str.strip raw) ->
  occurs (fence (u "json")) (Str.strip raw) ->
  structured_completion temperature_zero client validate (LLMEngine_init m)
    messages model =
  validated validate (Str.strip raw).
Proof.
  intros Hraw Hs Hocc. unfold structured_completion. fold json_object.
  rewrite Hraw. cbn [bind]. rewrite parse_structured_engine. cbv zeta.
  apply between_none in Hs. apply contains_iff in Hocc. now rewrite Hs, Hocc.
Qed.

(** X14.  For an engine built by [__init__]: when the stripped completion
    text has no marker of a fenced json block, [structured_completion]
    validates that text if it starts with an opening brace and ends with a
    closing one, and raises [LLMParsingError] otherwise. *)
Theorem structured_completion_bare (m : option str) (messages : messages_t)
    (model : option str) (raw : str) :
  single_completion client (LLMEngine_init m) messages model temperature_zero
    json_object = Return (Some raw) ->
  ~ occurs (fence (u "json")) (Str.strip raw) ->
  structured_completion temperature_zero client validate (LLMEngine_init m)
    messages model =
  if braced (Str.strip raw) then validated validate (Str.strip raw)
  else Raise LLMParsingError.
Proof.
  intros Hraw Hocc. unfold structured_completion. fold json_object.
  rewrite Hraw. cbn [bind]. rewrite parse_structured_engine. cbv zeta.
  rewrite (between_absent _ _ _ Hocc).
  apply contains_false in Hocc. now rewrite Hocc.
Qed.

(** X15.  [structured_completion] of an engine built by [__init__] never
    raises [ValidationError], whatever the client and the validator
    do. *)
Theorem structured_completion_no_validation_error (m : option str)
    (messages : messages_t) (model : option str) :
  structured_completion temperature_zero client validate (LLMEngine_init m)
    messages model <> Raise ValidationError.
Proof.
  unfold structured_completion. fold json_object.
  rewrite single_completion_once.
  destruct (client (requested (LLMEngine_init m) model) messages
              temperature_zero 1 json_object) as [response|e] eqn:Hc.
  - unfold completion, trace_llm_usage. rewrite py_or_requested, Hc.
    cbn [bind]. destruct (choices response) as [|[raw|] rest]; cbn [bind];
      try discriminate.
    rewrite parse_structured_engine. cbv zeta.
    repeat match goal with
           | |- context [match ?x with _ => _ end] =>
               lazymatch x with
               | validated _ _ => fail
               | _ => destruct x
               end
           end;
      try discriminate; apply validated_not_validation_error.
  - rewrite (completion_raised _ _ client _ _ _ _ _ _ _ Hc).
    destruct (classify_cases (requested (LLMEngine_init m) model) e)
      as [(err & -> & Hp) | (-> & _)]; cbn [bind].
    + intros [= ->]. exact Hp.
    + discriminate.
Qed.

End StructuredMore.

(** X16.  For an engine built by [__init__], [completion] never calls the
    provider client with the empty string as model id, whatever was
    passed to [__init__] and to the call: two clients that agree on every
    model id but the empty one give the same result. *)
Theorem engine_model_never_empty (messages_t temperature_t : Type)
    (client client' :
       str -> messages_t -> temperature_t -> nat ->
       option (list (str * str)) -> ModelResponse + litellm_exception)
    (m : option str) (messages : messages_t) (model : option str)
    (temperature : temperature_t)
    (response_format : option (list (str * str))) (n : nat) :
  (forall id msgs t k f,
     id <> [] -> client id msgs t k f = client' id msgs t k f) ->
  completion client (LLMEngine_init m) messages model temperature
    response_format n =
  completion client' (LLMEngine_init m) messages model temperature
    response_format n.
Proof.
  intros H. unfold completion, trace_llm_usage.
  rewrite !py_or_requested.
  now rewrite (H _ _ _ _ _ (requested_init_not_empty m model)).
Qed.

Module ExtractMore.

Lemma residual_check_inv (pm out : str) :
  residual_check pm = Return out -> out = pm /\ ~ tag_like pm.
Proof.
  unfold residual_check, Re.search. rewrite compile_taglike. cbn [bind].
  destruct (Re.search_from taglike_re pm) eqn:E; [discriminate|].
  intros [= <-]. split; [reflexivity | now apply search_taglike_none].
Qed.

Lemma first_span_has_span (pre post text a x b : str) :
  first_span pre post text a x b -> has_span pre post text.
Proof. intros [[E _] _]. now exists a, x, b. Qed.

Lemma close_tag_not_empty (tag : str) : close_tag tag <> [].
Proof. discriminate. Qed.

End ExtractMore.
Import ExtractMore.

(** X17.  Without an outer tag, and with the inner tag absent or plain and
    tolerated, [extract] never raises, and calling it again on its output
    returns that output unchanged. *)
Theorem extract_tolerant_idempotent (self : StructuredContent) (text : str) :
  truthy (outer_tag self) = None ->
  (forall tag, truthy (inner_tag self) = Some tag ->
     plain tag = true /\ fail_if_inner_tag self = false) ->
  exists out,
    extract self text = Return out /\ extract self out = Return out.
Proof.
  intros Ho Hi. unfold extract. rewrite !(extract_outer_none _ _ Ho).
  cbn [bind].
  destruct (truthy (inner_tag self)) as [tag|] eqn:Ht.
  - destruct (Hi tag eq_refl) as [Hp Hf].
    rewrite (extract_inner_plain _ _ _ Hp Ht), Hf.
    destruct (between (fence tag) fence_end text) as [y|] eqn:Hb.
    + exists (Str.strip y). split; [reflexivity|].
      rewrite extract_outer_none by assumption. cbn [bind].
      rewrite (extract_inner_plain _ _ _ Hp Ht), Hf.
      apply between_first_span in Hb as (a & b & Hs).
      now rewrite (between_absent _ _ _ (body_without_marker _ _ _ _ _ Hs)).
    + exists text. split; [reflexivity|].
      rewrite extract_outer_none by assumption. cbn [bind].
      now rewrite (extract_inner_plain _ _ _ Hp Ht), Hf, Hb.
  - exists text. rewrite (extract_inner_none _ _ Ht). split; [reflexivity|].
    rewrite extract_outer_none by assumption. cbn [bind].
    now apply extract_inner_none.
Qed.

(** X18.  With a plain outer tag, no inner tag and [fail_if_final_tag] on,
    [extract] returns exactly when the text contains a span
    [<tag>...</tag>]: an opening tag that is never closed raises. *)
Theorem extract_strict_returns_iff_span (self : StructuredContent)
    (tag text : str) :
  plain tag = true ->
  truthy (outer_tag self) = Some tag ->
  truthy (inner_tag self) = None ->
  fail_if_final_tag self = true ->
  ((exists out, extract self text = Return out) <->
   has_span (open_tag tag) (close_tag tag) text).
Proof.
  intros Hp Ho Hi Hf. unfold extract.
  rewrite (extract_outer_plain _ _ _ Hp Ho).
  destruct (between (open_tag tag) (close_tag tag) text) as [x|] eqn:Hb.
  - cbn [bind]. rewrite (extract_inner_none _ _ Hi). split.
    + intros _. apply between_first_span in Hb as (a & b & Hs).
      eapply first_span_has_span; eauto.
    + intros _. eauto.
  - rewrite (extract_unclosed_strict _ _ _ Hf). cbn [bind]. split.
    + intros [out H]. discriminate H.
    + intros Hs. apply between_none in Hb. contradiction.
Qed.

(** X19.  In the unclosed path (no span, opening tag present,
    [fail_if_final_tag] off) with no inner tag, when the match the path
    ends with holds no residual tag, [extract] returns it: the segment
    after the first opening tag up to the next one, not stripped, or the
    stripped part before the next outer tag when the retry applies. *)
Theorem extract_unclosed_returns (self : StructuredContent)
    (tag text a rest seg fm : str) :
  plain tag = true ->
  truthy (outer_tag self) = Some tag ->
  truthy (inner_tag self) = None ->
  ~ has_span (open_tag tag) (close_tag tag) text ->
  first_at (open_tag tag) text a rest ->
  fail_if_final_tag self = false ->
  up_to (open_tag tag) rest seg ->
  final_match self seg fm ->
  ~ tag_like fm ->
  extract self text = Return fm.
Proof.
  intros Hp Ho Hi Hs Ha Hf Hu Hm Ht.
  rewrite (extract_fallback _ _ _ _ _ _ Hp Ho Hs Ha Hf Hu).
  rewrite (tentative_final _ _ _ Hm). cbn [bind].
  rewrite (residual_check_clean _ Ht). cbn [bind].
  now apply extract_inner_none.
Qed.

(** X20.  With a plain outer tag and no inner tag, if [extract] returns on
    a text without a span, then [fail_if_final_tag] is off, the opening
    tag occurs in the text, and the output holds no [<...>]. *)
Theorem extract_without_span_inv (self : StructuredContent)
    (tag text out : str) :
  plain tag = true ->
  truthy (outer_tag self) = Some tag ->
  truthy (inner_tag self) = None ->
  ~ has_span (open_tag tag) (close_tag tag) text ->
  extract self text = Return out ->
  fail_if_final_tag self = false /\
  occurs (open_tag tag) text /\
  ~ tag_like out.
Proof.
  intros Hp Ho Hi Hs Hret.
  destruct (fail_if_final_tag self) eqn:Hf.
  { exfalso. unfold extract in Hret. apply between_none in Hs.
    rewrite (extract_outer_plain _ _ _ Hp Ho), Hs in Hret.
    now rewrite (extract_unclosed_strict _ _ _ Hf) in Hret. }
  destruct (Str.cut text (open_tag tag)) as [[a rest]|] eqn:Hc.
  - apply cut_first_at in Hc.
    assert (occurs (open_tag tag) text) as Hocc
      by (exists a, rest; apply Hc).
    repeat split; [exact Hocc|].
    rewrite (extract_fallback self tag text a rest (segment (open_tag tag) rest)
               Hp Ho Hs Hc Hf) in Hret
      by now apply up_to_segment.
    destruct (tentative self (segment (open_tag tag) rest)) as [pm|e|];
      cbn [bind] in Hret; try discriminate.
    destruct (residual_check pm) as [pm'|e|] eqn:Hr;
      cbn [bind] in Hret; try discriminate.
    rewrite (extract_inner_none _ _ Hi) in Hret. injection Hret as <-.
    apply residual_check_inv in Hr as [-> Hr]. exact Hr.
  - exfalso. apply cut_none in Hc. unfold extract in Hret.
    apply between_none in Hs.
    rewrite (extract_outer_plain _ _ _ Hp Ho), Hs in Hret.
    now rewrite (extract_unclosed_absent _ _ _ Hc) in Hret.
Qed.

(** X21.  With a plain outer tag and no inner tag, on a text with a span
    [extract] returns a payload in which the closing tag does not occur
    (the span ends at the nearest closing tag). *)
Theorem extract_span_payload_closed (self : StructuredContent)
    (tag text a0 x0 b0 : str) :
  plain tag = true ->
  truthy (outer_tag self) = Some tag ->
  truthy (inner_tag self) = None ->
  text = a0 ++ open_tag tag ++ x0 ++ close_tag tag ++ b0 ->
  exists out,
    extract self text = Return out /\ ~ occurs (close_tag tag) out.
Proof.
  intros Hp Ho Hi E.
  destruct (between (open_tag tag) (close_tag tag) text) as [x|] eqn:Hb.
  - exists (Str.strip x). split.
    + unfold extract. rewrite (extract_outer_plain _ _ _ Hp Ho), Hb.
      cbn [bind]. now apply extract_inner_none.
    + apply between_first_span in Hb as (a & b & _ & H).
      apply first_at_clean in H; [|apply close_tag_not_empty].
      intros Hocc. apply H. now apply occurs_strip.
  - apply between_none in Hb. exfalso. apply Hb. now exists a0, x0, b0.
Qed.

(** X22.  With a plain inner tag, when the content left by the outer step
    has a fenced block, [extract] returns a payload in which no fence
    occurs. *)
Theorem extract_fence_payload_closed (self : StructuredContent)
    (tag text content a0 y0 b0 : str) :
  plain tag = true ->
  truthy (inner_tag self) = Some tag ->
  extract_outer self text = Return content ->
  content = a0 ++ fence tag ++ y0 ++ fence_end ++ b0 ->
  exists out,
    extract self text = Return out /\ ~ occurs fence_end out.
Proof.
  intros Hp Hi Hout E. unfold extract. rewrite Hout. cbn [bind].
  rewrite (extract_inner_plain _ _ _ Hp Hi).
  destruct (between (fence tag) fence_end content) as [y|] eqn:Hb.
  - exists (Str.strip y). split; [reflexivity|].
    apply between_first_span in Hb as (a & b & _ & H).
    apply first_at_clean in H; [|discriminate].
    intros Hocc. apply H. now apply occurs_strip.
  - apply between_none in Hb. exfalso. apply Hb. now exists a0, y0, b0.
Qed.

(** X23.  When [<next_outer_tag>] occurs in the tentative match (the test
    that guards the retry), the re-split returns the stripped part before
    its first occurrence: the [LLMParsingError] of lines 187-190 is never
    raised from [extract]. *)
Theorem retry_split_guarded (possible_match next : str) :
  Str.contains (open_tag next) possible_match = true ->
  retry_split possible_match (open_tag next) =
  Return (Str.strip (segment (open_tag next) possible_match)).
Proof.
  intros H. unfold Str.contains, segment in *.
  destruct (Str.cut possible_match (open_tag next)) as [[x y]|] eqn:Hc;
    [|discriminate].
  apply cut_first_at in Hc. now apply retry_split_found with (y := y).
Qed.

(** X24.  With [fail_if_next_outer_tag] on (the default), [extract] does
    what it does without a next outer tag: the flag raises nothing, it
    turns the retry off. *)
Theorem extract_ignores_next_tag (self : StructuredContent) (text : str) :
  fail_if_next_outer_tag self = true ->
  extract self text =
  extract (mkStructuredContent (outer_tag self) (inner_tag self) None
             (fail_if_final_tag self) (fail_if_inner_tag self) true) text.
Proof.
  destruct self as [o i n f1 f2 f3].
  cbn [fail_if_next_outer_tag]. intros ->.
  unfold extract, extract_outer, extract_unclosed.
  cbn [outer_tag inner_tag next_outer_tag fail_if_final_tag fail_if_inner_tag
       fail_if_next_outer_tag negb andb].
  destruct (truthy o) as [tag|]; [|reflexivity].
  match goal with
  | |- context [Re.search ?p text Re.DOTALL] =>
      destruct (Re.search p text Re.DOTALL) as [[g|]| |]
  end; cbn [bind]; try reflexivity.
  match goal with
  | |- context [Str.split text ?sep] =>
      destruct (Str.split text sep) as [splits| |]
  end; cbn [bind]; try reflexivity.
  destruct (f1 || (length splits =? 1)); [reflexivity|].
  destruct (item splits 1) as [pm| |]; cbn [bind]; try reflexivity.
  now destruct n.
Qed.

(* ================================================================== *)
(** ** Instances *)

Lemma completion_authentication_witness :
  completion
    (fun _ (_ : unit) (_ : unit) _ _ =>
       inr (mkException AuthenticationError (u "bad key")))
    (LLMEngine_init None) tt (Some (u "gpt")) tt None 1 =
  Raise (InvalidAPIKeyError (u "gpt")).
Proof.
  apply (completion_authentication unit unit
           (fun _ _ _ _ _ => inr (mkException AuthenticationError (u "bad key")))
           (LLMEngine_init None) tt (Some (u "gpt")) tt None 1
           (mkException AuthenticationError (u "bad key")));
    reflexivity.
Defined.

Lemma completion_raises_provider_error_witness :
  exists err,
    completion
      (fun _ (_ : unit) (_ : unit) _ _ =>
         inr (mkException Exception (u "boom")))
      (LLMEngine_init None) tt None tt None 1 = Raise err /\
    (provider_error err \/
     (err = ValueError /\
      Exception = LiteLLMContextWindowExceededError /\
      exists a cur lim b,
        size_report (u "boom") a cur lim b /\
        (~ within_cap cur \/ ~ within_cap lim))).
Proof.
  apply (completion_raises_provider_error unit unit
           (fun _ _ _ _ _ => inr (mkException Exception (u "boom")))
           (LLMEngine_init None) tt None tt None 1
           (mkException Exception (u "boom")));
    reflexivity.
Defined.

Lemma completion_context_window_sizes_witness :
  sizes_ok (Some 12%Z) (Some 8%Z).
Proof.
  apply (completion_context_window_sizes unit unit
           (fun _ _ _ _ _ =>
              inr (mkException LiteLLMContextWindowExceededError
                     (u "Current length is 12 while limit is 8")))
           (LLMEngine_init None) tt (Some (u "gpt")) tt None 1 (u "gpt")).
  reflexivity.
Defined.

Lemma engine_model_never_empty_witness :
  completion
    (fun id (_ : unit) (_ : unit) _ _ => inl (mkModelResponse [Some id]))
    (LLMEngine_init (Some [])) tt (Some []) tt None 1 =
  completion
    (fun id (_ : unit) (_ : unit) _ _ =>
       match id with
       | [] => inr (mkException Exception (u "no model"))
       | _ :: _ => inl (mkModelResponse [Some id])
       end)
    (LLMEngine_init (Some [])) tt (Some []) tt None 1.
Proof.
  apply engine_model_never_empty.
  intros id msgs t k f Hid. destruct id; [congruence | reflexivity].
Defined.

Lemma completion_image_error_iff_witness :
  completion
    (fun _ (_ : unit) (_ : unit) _ _ =>
       inr (mkException BadRequestError
              (u "content: Input should be a valid string")))
    (LLMEngine_init None) tt (Some (u "gpt")) tt None 1 =
  Raise (ModelDoesNotSupportImageError (u "gpt")) <->
  BadRequestError = BadRequestError /\
  occurs image_phrase (u "content: Input should be a valid string").
Proof.
  apply (completion_image_error_iff unit unit
           (fun _ _ _ _ _ =>
              inr (mkException BadRequestError
                     (u "content: Input should be a valid string")))
           (LLMEngine_init None) tt (Some (u "gpt")) tt None 1
           (mkException BadRequestError
              (u "content: Input should be a valid string")));
    reflexivity.
Defined.

Lemma completion_no_retry_iff_witness :
  (exists dev user agent,
     completion
       (fun _ (_ : unit) (_ : unit) _ _ =>
          inr (mkException BadRequestError (u "unknown parameter")))
       (LLMEngine_init None) tt (Some (u "gpt")) tt None 1 =
     Raise (LLMProviderError dev user agent false)) <->
  BadRequestError = BadRequestError /\
  ~ occurs image_phrase (u "unknown parameter").
Proof.
  apply (completion_no_retry_iff unit unit
           (fun _ _ _ _ _ =>
              inr (mkException BadRequestError (u "unknown parameter")))
           (LLMEngine_init None) tt (Some (u "gpt")) tt None 1
           (mkException BadRequestError (u "unknown parameter")));
    reflexivity.
Defined.

Lemma completion_credits_iff_witness :
  completion
    (fun _ (_ : unit) (_ : unit) _ _ =>
       inr (mkException Exception (u "Your credit balance is too low")))
    (LLMEngine_init None) tt None tt None 1 =
  Raise InsufficentCreditsError <->
  Exception = Exception /\
  occurs credit_phrase (u "Your credit balance is too low").
Proof.
  apply (completion_credits_iff unit unit
           (fun _ _ _ _ _ =>
              inr (mkException Exception (u "Your credit balance is too low")))
           (LLMEngine_init None) tt None tt None 1
           (mkException Exception (u "Your credit balance is too low")));
    reflexivity.
Defined.

Lemma completion_retry_iff_witness :
  (exists dev user agent,
     completion
       (fun _ (_ : unit) (_ : unit) _ _ =>
          inr (mkException APIError (u "503")))
       (LLMEngine_init None) tt None tt None 1 =
     Raise (LLMProviderError dev user agent true)) <->
  APIError = APIError \/
  (APIError = Exception /\ ~ occurs credit_phrase (u "503")).
Proof.
  apply (completion_retry_iff unit unit
           (fun _ _ _ _ _ => inr (mkException APIError (u "503")))
           (LLMEngine_init None) tt None tt None 1
           (mkException APIError (u "503")));
    reflexivity.
Defined.

Lemma completion_provider_is_requested_witness :
  u "gpt" = requested (LLMEngine_init None) (Some (u "gpt")).
Proof.
  exact (completion_provider_is_requested unit unit
           (fun _ _ _ _ _ => inr (mkException AuthenticationError (u "bad key")))
           (LLMEngine_init None) tt (Some (u "gpt")) tt None 1
           (InvalidAPIKeyError (u "gpt")) eq_refl).
Defined.

Lemma single_completion_first_choice_witness :
  let client := fun (_ : str) (_ : unit) (_ : unit) (_ : nat)
                    (_ : option (list (str * str))) =>
                  @inl ModelResponse litellm_exception
                       (mkModelResponse [Some (u " hi "); Some (u "there")]) in
  (forall content rest,
     [Some (u " hi "); Some (u "there")] = content :: rest ->
     single_completion client (LLMEngine_init None) tt None tt None =
     Return content) /\
  ([Some (u " hi "); Some (u "there")] = [] ->
   single_completion client (LLMEngine_init None) tt None tt None =
   Raise IndexError).
Proof.
  intros client.
  exact (single_completion_first_choice unit unit client
           (LLMEngine_init None) tt None tt None
           (mkModelResponse [Some (u " hi "); Some (u "there")]) eq_refl).
Defined.

Lemma structured_completion_propagates_witness :
  let client := fun (_ : str) (_ : unit) (_ : unit) (_ : nat)
                    (_ : option (list (str * str))) =>
                  @inr ModelResponse litellm_exception
                       (mkException RateLimitError (u "slow down")) in
  let validate := fun _ : str => @Raise Z ValidationError in
  single_completion client (LLMEngine_init None) tt (Some (u "gpt")) tt
    json_object = Raise (NotteRateLimitError (u "gpt")) /\
  structured_completion tt client validate (LLMEngine_init None) tt
    (Some (u "gpt")) = Raise (NotteRateLimitError (u "gpt")).
Proof.
  intros client validate.
  exact (structured_completion_propagates unit unit tt client Z validate
           (LLMEngine_init None) tt (Some (u "gpt"))
           (NotteRateLimitError (u "gpt")) eq_refl).
Defined.

Lemma structured_completion_no_content_witness :
  let client := fun (_ : str) (_ : unit) (_ : unit) (_ : nat)
                    (_ : option (list (str * str))) =>
                  @inl ModelResponse litellm_exception
                       (mkModelResponse [None]) in
  let validate := fun _ : str => @Raise Z ValidationError in
  ([@None str] = [] ->
   structured_completion tt client validate (LLMEngine_init None) tt None =
   Raise IndexError) /\
  (forall rest, [@None str] = None :: rest ->
   structured_completion tt client validate (LLMEngine_init None) tt None =
   Raise AttributeError).
Proof.
  intros client validate.
  exact (structured_completion_no_content unit unit tt client Z validate
           (LLMEngine_init None) tt None (mkModelResponse [None]) eq_refl).
Defined.

Lemma structured_completion_fenced_witness :
  let client := fun (_ : str) (_ : unit) (_ : unit) (_ : nat)
                    (_ : option (list (str * str))) =>
                  @inl ModelResponse litellm_exception
                       (mkModelResponse [Some (u " ```json [1] ``` ")]) in
  let validate := fun s : str => Return (length s) in
  structured_completion tt client validate (LLMEngine_init None) tt None =
  Raise LLMParsingError.
Proof.
  intros client validate.
  apply (structured_completion_fenced unit unit tt client nat validate
           None tt None (u " ```json [1] ``` ") [] (u " [1] ") []).
  - reflexivity.
  - split; apply cut_first_at; reflexivity.
Defined.

Lemma structured_completion_unclosed_fence_witness :
  let client := fun (_ : str) (_ : unit) (_ : unit) (_ : nat)
                    (_ : option (list (str * str))) =>
                  @inl ModelResponse litellm_exception
                       (mkModelResponse [Some (u " ```json {1} ")]) in
  let validate := fun s : str => Return (length s) in
  structured_completion tt client validate (LLMEngine_init None) tt None =
  Return 11.
Proof.
  intros client validate.
  apply (structured_completion_unclosed_fence unit unit tt client nat validate
           None tt None (u " ```json {1} ")).
  - reflexivity.
  - apply between_none. reflexivity.
  - apply contains_iff. reflexivity.
Defined.

Lemma structured_completion_bare_witness :
  let client := fun (_ : str) (_ : unit) (_ : unit) (_ : nat)
                    (_ : option (list (str * str))) =>
                  @inl ModelResponse litellm_exception
                       (mkModelResponse [Some (u " {1: 2} ")]) in
  let validate := fun s : str => Return (length s) in
  structured_completion tt client validate (LLMEngine_init None) tt None =
  Return 6.
Proof.
  intros client validate.
  apply (structured_completion_bare unit unit tt client nat validate
           None tt None (u " {1: 2} ")).
  - reflexivity.
  - apply contains_false. reflexivity.
Defined.

Lemma extract_tolerant_idempotent_witness :
  exists out,
    extract (mkStructuredContent None (Some (u "json")) None true false true)
            (u "x ```json a ``` y") = Return out /\
    extract (mkStructuredContent None (Some (u "json")) None true false true)
            out = Return out.
Proof.
  apply extract_tolerant_idempotent.
  - reflexivity.
  - intros tag [= <-]. split; reflexivity.
Defined.

Lemma extract_strict_returns_iff_span_witness :
  (exists out,
     extract (mkStructuredContent (Some (u "r")) None None true true true)
             (u "a <r> b") = Return out) <->
  has_span (open_tag (u "r")) (close_tag (u "r")) (u "a <r> b").
Proof.
  apply extract_strict_returns_iff_span; reflexivity.
Defined.

Lemma extract_unclosed_returns_witness :
  extract (mkStructuredContent (Some (u "r")) None None false true true)
          (u "aa <r> hello <r> x") = Return (u " hello ").
Proof.
  apply (extract_unclosed_returns _ (u "r") _ (u "aa ") (u " hello <r> x")
           (u " hello ") (u " hello ")).
  - reflexivity.
  - reflexivity.
  - reflexivity.
  - apply between_none. reflexivity.
  - apply cut_first_at. reflexivity.
  - reflexivity.
  - apply up_to_segment. reflexivity.
  - apply final_keep. intros next H. discriminate H.
  - apply search_taglike_none. reflexivity.
Defined.

Lemma extract_without_span_inv_witness :
  false = false /\
  occurs (open_tag (u "r")) (u "aa <r> hello <r> x") /\
  ~ tag_like (u " hello ").
Proof.
  apply (extract_without_span_inv
           (mkStructuredContent (Some (u "r")) None None false true true)
           (u "r") (u "aa <r> hello <r> x") (u " hello ")).
  - reflexivity.
  - reflexivity.
  - reflexivity.
  - apply between_none. reflexivity.
  - reflexivity.
Defined.

Lemma extract_span_payload_closed_witness :
  exists out,
    extract (mkStructuredContent (Some (u "r")) None None true true true)
            (u "<r>a</r>b</r>") = Return out /\
    ~ occurs (close_tag (u "r")) out.
Proof.
  apply (extract_span_payload_closed _ (u "r") _ [] (u "a</r>b") []);
    reflexivity.
Defined.

Lemma extract_fence_payload_closed_witness :
  exists out,
    extract (mkStructuredContent None (Some (u "json")) None true true true)
            (u "```json a ``` b ```") = Return out /\
    ~ occurs fence_end out.
Proof.
  apply (extract_fence_payload_closed _ (u "json") _
           (u "```json a ``` b ```") [] (u " a ``` b ") []);
    reflexivity.
Defined.

Lemma retry_split_guarded_witness :
  retry_split (u " hello <b> x") (open_tag (u "b")) =
  Return (Str.strip (segment (open_tag (u "b")) (u " hello <b> x"))).
Proof.
  apply retry_split_guarded. reflexivity.
Defined.

Lemma extract_ignores_next_tag_witness :
  extract (mkStructuredContent (Some (u "r")) None (Some (u "b"))
                               false true true)
          (u "aa <r> hello <b> x") =
  extract (mkStructuredContent (Some (u "r")) None None false true true)
          (u "aa <r> hello <b> x").
Proof.
  apply (extract_ignores_next_tag
           (mkStructuredContent (Some (u "r")) None (Some (u "b"))
                                false true true)).
  reflexivity.
Defined.
